(** * Content integrity of the blog repository

    The repository holds two kinds of static content:
    - [projectsData] modules: a [const] bound to an array literal of object
      literals, followed by [export default];
    - blog posts: markdown files that open with a metadata header between
      two [---] lines.

    The first part embeds the module sources as syntax and gives them a
    store-and-heap semantics (objects and arrays are heap cells, so that
    sharing and mutation can be talked about).  The second part embeds the
    post headers line by line and reads them with a reader for the header
    syntax.  The theorems at the end are the content-integrity properties. *)

From stdpp Require Import gmap strings list sorting.
From Stdlib Require Import Ascii String ZArith Lia DecimalString.
From Stdlib.Strings Require Import Byte.

Set Warnings "-register-all".

Local Open Scope string_scope.
Local Open Scope list_scope.

(** ** Characters and text *)

Module Text.

Definition chars := list ascii.

Definition code (c : ascii) : N := N_of_ascii c.

Definition is_space (c : ascii) : bool := Ascii.eqb c " ".
Definition is_digit (c : ascii) : bool := (48 <=? code c)%N && (code c <=? 57)%N.
Definition is_upper (c : ascii) : bool := (65 <=? code c)%N && (code c <=? 90)%N.
Definition is_lower (c : ascii) : bool := (97 <=? code c)%N && (code c <=? 122)%N.
Definition is_alnum (c : ascii) : bool := is_digit c || is_upper c || is_lower c.

Fixpoint ltrim (cs : chars) : chars :=
  match cs with
  | c :: cs' => if is_space c then ltrim cs' else cs
  | [] => []
  end.

Definition rtrim (cs : chars) : chars := rev (ltrim (rev cs)).

Definition blank (cs : chars) : bool := forallb is_space cs.

Fixpoint has_infix (p cs : chars) : bool :=
  match cs with
  | [] => match p with [] => true | _ => false end
  | _ :: cs' => bool_decide (p `prefix_of` cs) || has_infix p cs'
  end.

Definition starts_with (p s : string) : bool :=
  bool_decide (list_ascii_of_string p `prefix_of` list_ascii_of_string s).

Definition ends_with (p s : string) : bool :=
  bool_decide (list_ascii_of_string p `suffix_of` list_ascii_of_string s).

End Text.

(** ** Absolute web addresses *)

Module Url.

Import Text.

(** [http://] or [https://] taken off the front. *)
Definition strip_scheme (cs : chars) : option chars :=
  match cs with
  | "h" :: "t" :: "t" :: "p" :: ":" :: "/" :: "/" :: rest => Some rest
  | "h" :: "t" :: "t" :: "p" :: "s" :: ":" :: "/" :: "/" :: rest => Some rest
  | _ => None
  end%char.

(** The authority runs up to the first [/], [?] or [#]. *)
Fixpoint split_authority (cs : chars) : chars * chars :=
  match cs with
  | [] => ([], [])
  | c :: cs' =>
      if bool_decide (c ∈ list_ascii_of_string "/?#") then ([], cs)
      else let '(a, t) := split_authority cs' in (c :: a, t)
  end.

(** Host labels: letters, digits and inner hyphens, separated by dots. *)
Fixpoint labels (cs : chars) (cur : chars) : list chars :=
  match cs with
  | [] => [rev cur]
  | c :: cs' =>
      if Ascii.eqb c "." then rev cur :: labels cs' [] else labels cs' (c :: cur)
  end.

Definition valid_label (l : chars) : bool :=
  match l, rev l with
  | a :: _, z :: _ =>
      is_alnum a && is_alnum z
      && forallb (fun c => is_alnum c || Ascii.eqb c "-") l
  | _, _ => false
  end.

Fixpoint split_port (cs : chars) : chars * option chars :=
  match cs with
  | [] => ([], None)
  | c :: cs' =>
      if Ascii.eqb c ":" then ([], Some cs')
      else let '(h, p) := split_port cs' in (c :: h, p)
  end.

Definition valid_authority (cs : chars) : bool :=
  let '(host, port) := split_port cs in
  forallb valid_label (labels host [])
  && match port with
     | Some p => forallb is_digit p
     | None => true
     end.

Definition is_hex (c : ascii) : bool :=
  is_digit c
  || bool_decide (c ∈ list_ascii_of_string "abcdefABCDEF").

(** Characters of a path, query or fragment; [%] must lead two hex digits. *)
Definition url_char (c : ascii) : bool :=
  is_alnum c || bool_decide (c ∈ list_ascii_of_string "-._~!$&'()*+,;=:@/?#").

Fixpoint valid_tail (cs : chars) : bool :=
  match cs with
  | [] => true
  | c :: cs' =>
      if Ascii.eqb c "%" then
        match cs' with
        | a :: b :: _ => is_hex a && is_hex b && valid_tail cs'
        | _ => false
        end
      else url_char c && valid_tail cs'
  end.

Definition valid_url (s : string) : bool :=
  match strip_scheme (list_ascii_of_string s) with
  | Some rest =>
      let '(authority, tail) := split_authority rest in
      valid_authority authority && valid_tail tail
  | None => false
  end.

End Url.

(** ** Part 1: the projects modules *)

Module JS.

(** Syntax of the fragment the modules are written in. *)
Inductive expr : Type :=
| Str (s : string)                      (* '...' *)
| Tpl (s : string)                      (* `...`, no substitution *)
| Obj (props : list (string * expr))    (* { k: e, ... } *)
| Arr (elems : list expr)               (* [ e, ... ] *)
| Ident (x : string).

Inductive stmt : Type :=
| Const (x : string) (init : expr)      (* const x = init *)
| ExportDefault (e : expr).             (* export default e *)

Definition module := list stmt.

(** Values: strings are immediate, objects and arrays live in the heap. *)
Definition loc := nat.

Inductive value : Type :=
| VStr (s : string)
| VRef (l : loc).

Inductive cell : Type :=
| CObj (props : list (string * value))
| CArr (elems : list value).

Abbreviation heap := (gmap loc cell).
Abbreviation env := (gmap string value).

(** Defining an own property: a key already present keeps its position and
    takes the new value, a new key goes last. *)
Fixpoint set_prop (k : string) (v : value) (ps : list (string * value))
  : list (string * value) :=
  match ps with
  | [] => [(k, v)]
  | (k', v') :: ps' =>
      if String.eqb k k' then (k, v) :: ps' else (k', v') :: set_prop k v ps'
  end.

Definition alloc (c : cell) (h : heap) : value * heap :=
  let l := fresh (dom h) in (VRef l, <[l := c]> h).

(** Expression evaluation, left to right, threading the heap. *)
Fixpoint eval (ρ : env) (e : expr) (h : heap) : option (value * heap) :=
  match e with
  | Str s => Some (VStr s, h)
  | Tpl s => Some (VStr s, h)
  | Ident x =>
      match ρ !! x with
      | Some v => Some (v, h)
      | None => None                     (* ReferenceError *)
      end
  | Obj ps =>
      let fix props (ps : list (string * expr)) (acc : list (string * value))
                    (h : heap) : option (list (string * value) * heap) :=
        match ps with
        | [] => Some (acc, h)
        | (k, e) :: ps' =>
            match eval ρ e h with
            | Some (v, h') => props ps' (set_prop k v acc) h'
            | None => None
            end
        end in
      match props ps [] h with
      | Some (acc, h') => Some (alloc (CObj acc) h')
      | None => None
      end
  | Arr es =>
      let fix elems (es : list expr) (acc : list value) (h : heap)
        : option (list value * heap) :=
        match es with
        | [] => Some (acc, h)
        | e :: es' =>
            match eval ρ e h with
            | Some (v, h') => elems es' (acc ++ [v]) h'
            | None => None
            end
        end in
      match elems es [] h with
      | Some (acc, h') => Some (alloc (CArr acc) h')
      | None => None
      end
  end.

(** The two local loops of [eval], named so that lemmas can speak of them. *)
Fixpoint eval_props (ρ : env) (ps : list (string * expr))
    (acc : list (string * value)) (h : heap)
  : option (list (string * value) * heap) :=
  match ps with
  | [] => Some (acc, h)
  | (k, e) :: ps' =>
      match eval ρ e h with
      | Some (v, h') => eval_props ρ ps' (set_prop k v acc) h'
      | None => None
      end
  end.

Fixpoint eval_elems (ρ : env) (es : list expr) (acc : list value) (h : heap)
  : option (list value * heap) :=
  match es with
  | [] => Some (acc, h)
  | e :: es' =>
      match eval ρ e h with
      | Some (v, h') => eval_elems ρ es' (acc ++ [v]) h'
      | None => None
      end
  end.

(** Module state: the bindings, the heap, and the default export once set. *)
Record state : Type := State {
  bindings : env;
  cells : heap;
  exported : option value
}.

Definition init : state := State ∅ ∅ None.

(** One statement at a time.  Redeclaring a [const] and exporting a default
    twice are early errors, so neither has a step. *)
Inductive step : state * list stmt -> state * list stmt -> Prop :=
| step_const σ x e k v h' :
    bindings σ !! x = None ->
    eval (bindings σ) e (cells σ) = Some (v, h') ->
    step (σ, Const x e :: k)
         (State (<[x := v]> (bindings σ)) h' (exported σ), k)
| step_export σ e k v h' :
    exported σ = None ->
    eval (bindings σ) e (cells σ) = Some (v, h') ->
    step (σ, ExportDefault e :: k)
         (State (bindings σ) h' (Some v), k).

Inductive steps : state * list stmt -> state * list stmt -> Prop :=
| steps_refl c : steps c c
| steps_step c1 c2 c3 : step c1 c2 -> steps c2 c3 -> steps c1 c3.

(** An evaluation of a module runs all its statements from [init]. *)
Definition evaluates (m : module) (σ : state) : Prop :=
  steps (init, m) (σ, []).

(** The same, as a function. *)
Definition exec (s : stmt) (σ : state) : option state :=
  match s with
  | Const x e =>
      match bindings σ !! x with
      | Some _ => None
      | None =>
          match eval (bindings σ) e (cells σ) with
          | Some (v, h') => Some (State (<[x := v]> (bindings σ)) h' (exported σ))
          | None => None
          end
      end
  | ExportDefault e =>
      match exported σ with
      | Some _ => None
      | None =>
          match eval (bindings σ) e (cells σ) with
          | Some (v, h') => Some (State (bindings σ) h' (Some v))
          | None => None
          end
      end
  end.

Fixpoint run (m : module) (σ : state) : option state :=
  match m with
  | [] => Some σ
  | s :: k =>
      match exec s σ with
      | Some σ' => run k σ'
      | None => None
      end
  end.

(** Plain data read back out of the heap.  [depth] bounds the nesting that
    is followed; a reference deeper than that reads as [None].  A chain of
    distinct cells is no longer than the heap, which is the bound used by
    [export_of]. *)
Inductive data : Type :=
| DStr (s : string)
| DObj (props : list (string * data))
| DArr (elems : list data).

Fixpoint read (depth : nat) (h : heap) (v : value) : option data :=
  match v with
  | VStr s => Some (DStr s)
  | VRef l =>
      match depth with
      | O => None
      | S d =>
          match h !! l with
          | Some (CObj ps) =>
              DObj <$> mapM (fun kv => pair (fst kv) <$> read d h (snd kv)) ps
          | Some (CArr vs) => DArr <$> mapM (read d h) vs
          | None => None
          end
      end
  end.

(** What an importer of the module's default export sees. *)
Definition export_of (σ : state) : option data :=
  match exported σ with
  | Some v => read (size (cells σ)) (cells σ) v
  | None => None
  end.

Definition default_export (m : module) : option data :=
  match run m init with
  | Some σ => export_of σ
  | None => None
  end.

(** What one state keeps of an earlier one: every binding, every cell, an
    export already made, and therefore all data readable through a value. *)
Record extends (σ σ' : state) : Prop := Extends {
  ext_bindings : bindings σ ⊆ bindings σ';
  ext_cells : cells σ ⊆ cells σ';
  ext_exported : forall v, exported σ = Some v -> exported σ' = Some v;
  ext_read : forall d v x, read d (cells σ) v = Some x ->
                           read d (cells σ') v = Some x
}.

(** Denotation of a closed literal, without any heap. *)
Fixpoint set_field (k : string) (d : data) (ps : list (string * data))
  : list (string * data) :=
  match ps with
  | [] => [(k, d)]
  | (k', d') :: ps' =>
      if String.eqb k k' then (k, d) :: ps' else (k', d') :: set_field k d ps'
  end.

Fixpoint literal (e : expr) : option data :=
  match e with
  | Str s => Some (DStr s)
  | Tpl s => Some (DStr s)
  | Ident _ => None
  | Obj ps =>
      let fix go (ps : list (string * expr)) (acc : list (string * data)) :=
        match ps with
        | [] => Some acc
        | (k, e) :: ps' =>
            match literal e with
            | Some d => go ps' (set_field k d acc)
            | None => None
            end
        end in
      DObj <$> go ps []
  | Arr es =>
      let fix go (es : list expr) :=
        match es with
        | [] => Some []
        | e :: es' =>
            match literal e, go es' with
            | Some d, Some ds => Some (d :: ds)
            | _, _ => None
            end
        end in
      DArr <$> go es
  end.

(** Property access on data. *)
Fixpoint get (k : string) (ps : list (string * data)) : option data :=
  match ps with
  | [] => None
  | (k', d) :: ps' => if String.eqb k k' then Some d else get k ps'
  end.

Definition keys (ps : list (string * data)) : list string := map fst ps.

(** A string-valued property of a record. *)
Definition field (k : string) (r : data) : option string :=
  match r with
  | DObj ps =>
      match get k ps with
      | Some (DStr s) => Some s
      | _ => None
      end
  | _ => None
  end.

(** *** The three modules, as written *)

(** [data/projectsData.js] *)
Definition projectsData_js : module :=
  [ Const "projectsData" (Arr
      [ Obj
          [ ("title", Str "A Search Engine");
            ("description", Tpl "What if you could look up any information in the world? Webpages, images, videos
    and more. Google has many features to help you find exactly what you're looking
    for.");
            ("imgSrc", Str "/static/images/google.png");
            ("href", Str "https://www.google.com") ];
        Obj
          [ ("title", Str "Blockchain in Go");
            ("description", Tpl "A simplified blockchain implementation in Golang");
            ("imgSrc", Str "/static/images/blockchain.jpg");
            ("href", Str "https://github.com/noodleslove/blockchain-go") ] ]);
    ExportDefault (Ident "projectsData") ].

(** The second [projectsData] module (file name not recorded). *)
Definition projectsData_1 : module :=
  [ Const "projectsData" (Arr
      [ Obj
          [ ("title", Str "House of Representatives Analysis");
            ("description", Tpl "This project uses public data about the stock trades made by members of the US House of Representatives.");
            ("imgSrc", Str "/static/images/stock.png");
            ("href", Str "https://github.com/noodleslove/House-of-Representative-Analysis-I") ];
        Obj
          [ ("title", Str "Blockchain in Go");
            ("description", Tpl "A simplified blockchain implementation in Golang");
            ("imgSrc", Str "/static/images/blockchain.jpg");
            ("href", Str "https://github.com/noodleslove/blockchain-go") ] ]);
    ExportDefault (Ident "projectsData") ].

(** The third [projectsData] module (file name not recorded). *)
Definition projectsData_2 : module :=
  [ Const "projectsData" (Arr
      [ Obj
          [ ("title", Str "UCSD CSES Website");
            ("description", Tpl "A website for UCSD CSES, a student organization at UC San Diego.");
            ("imgSrc", Str "/static/images/ucsd-cses.jpg");
            ("href", Str "https://github.com/Will-Hsu/cses_webdev") ];
        Obj
          [ ("title", Str "NutriPal");
            ("description", Str "NutriPal is a user-friendly diet information website that aims to simplify the daily diet logging process.");
            ("imgSrc", Str "/static/images/nutri-pal.jpg");
            ("href", Str "https://github.com/noodleslove/nutriPal") ];
        Obj
          [ ("title", Str "LFM Recommender System");
            ("description", Str "A Yelp Recommender System using Latent Factor Collaborative Filtering to provide personalized business recommendations through a web application, enhancing user experience and engagement.");
            ("imgSrc", Str "/static/images/lfm.jpg");
            ("href", Str "https://drive.google.com/file/d/1cbem5KYzXJhihUirzvo_5JAMdW6Dw8LF/view?usp=sharing") ];
        Obj
          [ ("title", Str "House of Representatives Analysis II");
            ("description", Str "This project analyzes stock trades made by members of the 116th U.S. House of Representatives, combining it with information on their political affiliation to evaluate missingness associations in the dataset.");
            ("imgSrc", Str "/static/images/stock-2.jpg");
            ("href", Str "https://drive.google.com/file/d/10AgiJjXxIM7ZC-H-ScfD9iZHK3lsnAdt/view?usp=sharing") ];
        Obj
          [ ("title", Str "House of Representatives Analysis I");
            ("description", Str "This project analyzes stock trades made by members of the 116th U.S. House of Representatives, combining it with information on their political affiliation to evaluate missingness associations in the dataset.");
            ("imgSrc", Str "/static/images/stock.png");
            ("href", Str "https://drive.google.com/file/d/1M3fHZAFZXAAp5A9QwROB91KcIcK2SG03/view?usp=sharing") ];
        Obj
          [ ("title", Str "Blockchain in Go");
            ("description", Tpl "A simplified blockchain implementation in Golang");
            ("imgSrc", Str "/static/images/blockchain.jpg");
            ("href", Str "https://github.com/noodleslove/blockchain-go") ];
        Obj
          [ ("title", Str "Jable Tv Notification Service");
            ("description", Tpl "An awesome web scraper powered by CloudScraper to collect video data from jable.tv");
            ("imgSrc", Str "/static/images/jable.png");
            ("href", Str "https://github.com/noodleslove/jable-py") ] ]);
    ExportDefault (Ident "projectsData") ].

Definition modules : list module :=
  [ projectsData_js; projectsData_1; projectsData_2 ].

End JS.

(** ** Part 2: the blog posts *)

Module Header.

(** A post file opens with a metadata header: a [---] line, one [key: value]
    entry per line, and a closing [---] line.  The values the headers use
    are single-quoted strings, plain (unquoted) scalars, and one-line
    sequences [[a, b, ...]] of such scalars.  The reader below covers this
    part of the syntax and rejects everything else. *)
Inductive node : Type :=
| YStr (s : string)
| YBool (b : bool)
| YInt (n : N)
| YNull
| YSeq (items : list node).

Import Text.

(** The rest of a single-quoted scalar after its opening quote: the text up
    to the closing quote (a doubled quote stands for one quote), and what
    follows it. *)
Fixpoint read_squoted (cs : chars) : option (chars * chars) :=
  match cs with
  | [] => None
  | c :: cs' =>
      if Ascii.eqb c "'" then
        match cs' with
        | c' :: cs'' =>
            if Ascii.eqb c' "'" then
              match read_squoted cs'' with
              | Some (s, rest) => Some (c :: s, rest)
              | None => None
              end
            else Some ([], cs')
        | [] => Some ([], [])
        end
      else
        match read_squoted cs' with
        | Some (s, rest) => Some (c :: s, rest)
        | None => None
        end
  end.

(** Characters that may not start a plain scalar. *)
Definition indicator (c : ascii) : bool :=
  bool_decide (c ∈ list_ascii_of_string "[]{},&*!|>'%@`#") || Ascii.eqb c "034".

Fixpoint digits_value (cs : chars) (acc : N) : N :=
  match cs with
  | [] => acc
  | c :: cs' => digits_value cs' (10 * acc + (code c - 48))%N
  end.

(** How a plain scalar is read: the words for booleans and null, a run of
    decimal digits, and any other text as a string.  Text holding [": "]
    or [" #"] is not a plain scalar. *)
Definition resolve_plain (cs : chars) : option node :=
  let s := string_of_list_ascii cs in
  match cs with
  | [] => Some YNull
  | c :: _ =>
      if bool_decide (s ∈ ["true"; "True"; "TRUE"]) then Some (YBool true)
      else if bool_decide (s ∈ ["false"; "False"; "FALSE"]) then Some (YBool false)
      else if bool_decide (s ∈ ["null"; "Null"; "NULL"; "~"]) then Some YNull
      else if forallb is_digit cs then Some (YInt (digits_value cs 0))
      else if indicator c then None
      else if has_infix (list_ascii_of_string ": ") cs then None
      else if has_infix (list_ascii_of_string " #") cs then None
      else Some (YStr s)
  end.

(** One-line sequences, read one character at a time. *)
Inductive fstate : Type :=
| Item                      (* before an item *)
| Quoted (acc : chars)      (* inside quotes; [acc] is reversed *)
| Unquote (acc : chars)     (* a quote seen inside quotes *)
| Plain (acc : chars)       (* inside a plain scalar; [acc] is reversed *)
| Next                      (* after an item, before [,] or []] *)
| Closed.                   (* after []] *)

Definition after_item (c : ascii) : option fstate :=
  if is_space c then Some Next
  else if Ascii.eqb c "," then Some Item
  else if Ascii.eqb c "]" then Some Closed
  else None.

Definition flow_step (st : fstate * list node) (c : ascii)
  : option (fstate * list node) :=
  let '(q, out) := st in
  match q with
  | Item =>
      if is_space c then Some (Item, out)
      else if Ascii.eqb c "'" then Some (Quoted [], out)
      else if Ascii.eqb c "]" then Some (Closed, out)
      else if indicator c then None
      else Some (Plain [c], out)
  | Quoted acc =>
      if Ascii.eqb c "'" then Some (Unquote acc, out)
      else Some (Quoted (c :: acc), out)
  | Unquote acc =>
      if Ascii.eqb c "'" then Some (Quoted (c :: acc), out)
      else
        match after_item c with
        | Some q' => Some (q', out ++ [YStr (string_of_list_ascii (rev acc))])
        | None => None
        end
  | Plain acc =>
      if Ascii.eqb c "," || Ascii.eqb c "]" then
        match resolve_plain (rtrim (rev acc)), after_item c with
        | Some n, Some q' => Some (q', out ++ [n])
        | _, _ => None
        end
      else if bool_decide (c ∈ list_ascii_of_string "[{}") then None
      else Some (Plain (c :: acc), out)
  | Next =>
      match after_item c with
      | Some q' => Some (q', out)
      | None => None
      end
  | Closed => if is_space c then Some (Closed, out) else None
  end.

Fixpoint flow_run (st : fstate * list node) (cs : chars)
  : option (fstate * list node) :=
  match cs with
  | [] => Some st
  | c :: cs' =>
      match flow_step st c with
      | Some st' => flow_run st' cs'
      | None => None
      end
  end.

(** The text after the opening bracket of a sequence. *)
Definition read_flow (cs : chars) : option node :=
  match flow_run (Item, []) cs with
  | Some (Closed, out) => Some (YSeq out)
  | _ => None
  end.

(** The value of an entry: the text after the colon. *)
Definition read_value (cs : chars) : option node :=
  match cs with
  | [] => Some YNull
  | c :: _ =>
      if is_space c then
        match ltrim cs with
        | [] => Some YNull
        | c' :: rest =>
            if Ascii.eqb c' "'" then
              match read_squoted rest with
              | Some (s, tail) =>
                  if blank tail then Some (YStr (string_of_list_ascii s)) else None
              | None => None
              end
            else if Ascii.eqb c' "[" then read_flow rest
            else resolve_plain (rtrim (c' :: rest))
        end
      else None
  end.

Definition key_char (c : ascii) : bool :=
  is_alnum c || Ascii.eqb c "_" || Ascii.eqb c "-".

Fixpoint split_colon (cs : chars) : option (chars * chars) :=
  match cs with
  | [] => None
  | c :: cs' =>
      if Ascii.eqb c ":" then Some ([], cs')
      else
        match split_colon cs' with
        | Some (k, v) => Some (c :: k, v)
        | None => None
        end
  end.

Definition read_entry (line : string) : option (string * node) :=
  match split_colon (list_ascii_of_string line) with
  | Some (k, v) =>
      match k with
      | [] => None
      | _ :: _ =>
          if forallb key_char k then
            match read_value v with
            | Some n => Some (string_of_list_ascii k, n)
            | None => None
            end
          else None
      end
  | None => None
  end.

Definition mapping := list (string * node).

Fixpoint lookup (k : string) (m : mapping) : option node :=
  match m with
  | [] => None
  | (k', n) :: m' => if String.eqb k k' then Some n else lookup k m'
  end.

(** Entries in order; a repeated key is an error, an empty line is skipped. *)
Fixpoint read_entries (ls : list string) (acc : mapping) : option mapping :=
  match ls with
  | [] => Some acc
  | l :: ls' =>
      if blank (list_ascii_of_string l) then read_entries ls' acc
      else
        match read_entry l with
        | Some (k, n) =>
            match lookup k acc with
            | Some _ => None
            | None => read_entries ls' (acc ++ [(k, n)])
            end
        | None => None
        end
  end.

(** The header lines of a file: those between the opening [---] on the
    first line and the next [---] line. *)
Fixpoint until_fence (ls : list string) : option (list string) :=
  match ls with
  | [] => None
  | l :: ls' =>
      if String.eqb l "---" then Some []
      else
        match until_fence ls' with
        | Some hd => Some (l :: hd)
        | None => None
        end
  end.

Definition front_matter (ls : list string) : option (list string) :=
  match ls with
  | l :: ls' => if String.eqb l "---" then until_fence ls' else None
  | [] => None
  end.

Definition read_header (ls : list string) : option mapping :=
  match front_matter ls with
  | Some hd => read_entries hd []
  | None => None
  end.

(** *** The post files, as written *)

(** A post: the file it is in, and its header lines through the closing
    [---].  The prose body that follows is free text.  Two of the files
    hold a second post after the first one's body. *)
Record file : Type := File {
  path : string;
  head : list string
}.

(** [data/blog/blockchain-in-go-1.md]. *)
Definition blockchain_in_go_1 : file :=
  {| path := "data/blog/blockchain-in-go-1.md";
     head :=
    [ "---";
      "title: 'Building blockchain from scratch in Go. Part 1: Basic Prototype'";
      "date: '2022-08-30'";
      "tags: ['blockchain', 'code', 'go']";
      "draft: false";
      "summary: In this series of articles we'll build a simplified cryptocurrency that's based on a simple blockchain implementation.";
      "authors: ['eddieho', 'sparrowhawk']";
      "---" ] |}.

(** [data/blog/blockchain-in-go/part-4.md]. *)
Definition blockchain_in_go_part_4 : file :=
  {| path := "data/blog/blockchain-in-go/part-4.md";
     head :=
    [ "---";
      "title: 'Building blockchain in Go. Part 4: Transactions 1'";
      "date: '2022-09-04'";
      "tags: ['blockchain', 'code', 'go']";
      "lastmod: '2022-09-04'";
      "draft: false";
      "summary: In this series of articles we’ll build a simplified cryptocurrency that’s based on a simple blockchain implementation.";
      "authors: ['eddieho']";
      "---" ] |}.

(** [data/blog/blockchain-in-go/part-6.md]. *)
Definition blockchain_in_go_part_6 : file :=
  {| path := "data/blog/blockchain-in-go/part-6.md";
     head :=
    [ "---";
      "title: 'Building blockchain in Go. Part 6: Transactions 2'";
      "date: '2022-09-16'";
      "tags: ['blockchain', 'code', 'go']";
      "lastmod: '2022-09-16'";
      "draft: true";
      "summary: In this series of articles we’ll build a simplified cryptocurrency that’s based on a simple blockchain implementation.";
      "authors: ['eddieho']";
      "---" ] |}.

(** The post on persistence, the second one in
    [data/blog/blockchain-in-go/part-6.md] (from line 331). *)
Definition persistence_and_cli : file :=
  {| path := "data/blog/blockchain-in-go/part-6.md";
     head :=
    [ "---";
      "title: 'Building blockchain in Go. Part 3: Persistence and CLI'";
      "date: '2022-09-02'";
      "tags: ['blockchain', 'code', 'go']";
      "draft: false";
      "summary: In this series of articles we'll build a simplified cryptocurrency that's based on a simple blockchain implementation.";
      "authors: ['eddieho']";
      "---" ] |}.

(** [data/blog/blockchain/blockchain-in-go/part-6.md]. *)
Definition blockchain_blockchain_in_go_part_6 : file :=
  {| path := "data/blog/blockchain/blockchain-in-go/part-6.md";
     head :=
    [ "---";
      "title: 'Building blockchain in Go. Part 6: Transactions 2'";
      "date: '2022-09-16'";
      "tags: ['blockchain', 'code', 'go']";
      "lastmod: '2022-09-16'";
      "draft: false";
      "summary: In this series of articles we’ll build a simplified cryptocurrency that’s based on a simple blockchain implementation.";
      "authors: ['eddieho']";
      "---" ] |}.

(** The post on addresses, the second one in
    [data/blog/blockchain/blockchain-in-go/part-6.md] (from line 494). *)
Definition addresses : file :=
  {| path := "data/blog/blockchain/blockchain-in-go/part-6.md";
     head :=
    [ "---";
      "title: 'Building blockchain in Go. Part 5: Addresses'";
      "date: '2022-09-07'";
      "tags: ['blockchain', 'code', 'go']";
      "lastmod: '2022-09-08'";
      "draft: false";
      "summary: In this series of articles we’ll build a simplified cryptocurrency that’s based on a simple blockchain implementation.";
      "authors: ['eddieho']";
      "---" ] |}.

(** The post on linear regression (file name not recorded) *)
Definition linear_regression : file :=
  {| path := "unnamed/part_000";
     head :=
    [ "---";
      "title: 'Recaps of Machine Learning: Linear Regression'";
      "date: '2023-07-15'";
      "tags: ['machine learning', 'data science', 'notes', 'math']";
      "lastmod: '2023-07-15'";
      "draft: false";
      "summary: Exploring linear regression and regularization techniques, this blog recaps the fundamental understanding of linear regression.";
      "authors: ['eddieho', 'chatgpt']";
      "---" ] |}.

Definition posts : list file :=
  [ blockchain_in_go_1; blockchain_in_go_part_4;
    blockchain_in_go_part_6; persistence_and_cli;
    blockchain_blockchain_in_go_part_6; addresses;
    linear_regression ].

(** *** Post records *)

Record post : Type := Post {
  title : string;
  date : string;
  tags : list string;
  lastmod : option string;
  draft : bool;
  summary : string;
  authors : list string
}.

Definition as_string (n : node) : option string :=
  match n with YStr s => Some s | _ => None end.

Definition as_bool (n : node) : option bool :=
  match n with YBool b => Some b | _ => None end.

Definition as_strings (n : node) : option (list string) :=
  match n with YSeq items => mapM as_string items | _ => None end.

(** A header as a post record: the six fields are required, [lastmod] is
    optional but must be a string when given. *)
Definition to_post (m : mapping) : option post :=
  t ← lookup "title" m ≫= as_string;
  d ← lookup "date" m ≫= as_string;
  tg ← lookup "tags" m ≫= as_strings;
  lm ← match lookup "lastmod" m with
       | Some n => Some <$> as_string n
       | None => Some None
       end;
  dr ← lookup "draft" m ≫= as_bool;
  sm ← lookup "summary" m ≫= as_string;
  au ← lookup "authors" m ≫= as_strings;
  Some (Post t d tg lm dr sm au).

Definition read_post (f : file) : option post :=
  read_header (head f) ≫= to_post.

(** *** Calendar dates *)

Definition leap (y : N) : bool :=
  ((y mod 4 =? 0) && negb (y mod 100 =? 0) || (y mod 400 =? 0))%N.

Definition days_in (y m : N) : N :=
  match m with
  | 1 | 3 | 5 | 7 | 8 | 10 | 12 => 31
  | 4 | 6 | 9 | 11 => 30
  | 2 => if leap y then 29 else 28
  | _ => 0
  end%N.

(** [YYYY-MM-DD] with a month from 01 to 12 and a day that month has. *)
Definition valid_date (s : string) : bool :=
  match list_ascii_of_string s with
  | [y1; y2; y3; y4; d1; m1; m2; d2; a1; a2] =>
      forallb is_digit [y1; y2; y3; y4; m1; m2; a1; a2]
      && Ascii.eqb d1 "-" && Ascii.eqb d2 "-"
      && (let y := digits_value [y1; y2; y3; y4] 0 in
          let m := digits_value [m1; m2] 0 in
          let d := digits_value [a1; a2] 0 in
          (1 <=? d)%N && (d <=? days_in y m)%N)
  | _ => false
  end.

Definition dates_of (p : post) : list string :=
  date p :: match lastmod p with Some d => [d] | None => [] end.

(** A header with the six required fields, each of its kind. *)
Definition well_formed (m : mapping) : Prop :=
  (exists s, lookup "title" m = Some (YStr s)) /\
  (exists s, lookup "date" m = Some (YStr s)) /\
  (exists l, lookup "tags" m = Some (YSeq (map YStr l))) /\
  (exists b, lookup "draft" m = Some (YBool b)) /\
  (exists s, lookup "summary" m = Some (YStr s)) /\
  (exists l, lookup "authors" m = Some (YSeq (map YStr l))).

End Header.

(** ** Part 6: the Go listings in the posts *)

(** The posts carry Go listings.  This part embeds the listed functions.
    What a listing calls but no listing defines (the hash functions, the
    encoders) is a parameter of the section that uses it. *)

Module Go.

Abbreviation bytes := (list byte).

#[global] Instance byte_eq_dec : EqDecision byte.
Proof.
  intros a b. destruct (Byte.eqb a b) eqn:E.
  - left. by apply Byte.byte_dec_bl.
  - right. intros ->. by rewrite (Byte.byte_dec_lb eq_refl) in E.
Defined.

#[global] Instance byte_countable : Countable byte :=
  inj_countable Byte.to_N Byte.of_N Byte.of_to_N.

(** [bytes.Equal] *)
Definition bytes_Equal (a b : bytes) : bool := bool_decide (a = b).

(** Run-time failures. *)
Inductive panic : Type :=
| IndexOutOfRange               (* s[i] with i outside s *)
| SliceBounds                   (* s[i:j] with bounds outside s *)
| NilDereference                (* p.f with p nil *)
| LogPanic (msg : string)       (* log.Panic(msg) *)
| CheckFailed.                  (* utils.Check(err) with an error *)

Inductive result (A : Type) : Type :=
| Ok (a : A)
| Panic (p : panic).

Arguments Ok {A} a.
Arguments Panic {A} p.

#[global] Instance result_bind : MBind result := fun A B k r =>
  match r with
  | Ok a => k a
  | Panic p => Panic p
  end.

(** [int]: 64 bits, two's complement, wrapping on overflow. *)
Definition wrap (z : Z) : Z := ((z + 2 ^ 63) mod 2 ^ 64 - 2 ^ 63)%Z.
Definition int_add (a b : Z) : Z := wrap (a + b).
Definition int_sub (a b : Z) : Z := wrap (a - b).
Definition in_int (z : Z) : Prop := (- 2 ^ 63 <= z < 2 ^ 63)%Z.

(** [s[i]] for an [int] index. *)
Definition index {A : Type} (s : list A) (i : Z) : result A :=
  if (i <? 0)%Z then Panic IndexOutOfRange
  else match s !! Z.to_nat i with
       | Some x => Ok x
       | None => Panic IndexOutOfRange
       end.

(** [s[i:j]] on a slice whose capacity is its length. *)
Definition slice {A : Type} (s : list A) (i j : Z) : result (list A) :=
  if ((0 <=? i) && (i <=? j) && (j <=? Z.of_nat (List.length s)))%Z
  then Ok (take (Z.to_nat j - Z.to_nat i) (drop (Z.to_nat i) s))
  else Panic SliceBounds.

(** [bytes.Join(parts, sep)] *)
Fixpoint Join (parts : list bytes) (sep : bytes) : bytes :=
  match parts with
  | [] => []
  | [p] => p
  | p :: rest => p ++ sep ++ Join rest sep
  end.

(** [strconv.FormatInt(n, 10)] as bytes. *)
Definition FormatInt10 (n : Z) : bytes :=
  list_byte_of_string (NilZero.string_of_int (Z.to_int n)).

(** [hex.EncodeToString] and [hex.DecodeString] ([None] is its error). *)
Definition hex_digit (n : N) : byte :=
  nth (N.to_nat n) (list_byte_of_string "0123456789abcdef") "0"%byte.

Definition hex_value (c : byte) : option N :=
  let n := Byte.to_N c in
  if ((48 <=? n) && (n <=? 57))%N then Some (n - 48)%N
  else if ((97 <=? n) && (n <=? 102))%N then Some (n - 87)%N
  else if ((65 <=? n) && (n <=? 70))%N then Some (n - 55)%N
  else None.

Definition hex_of_byte (b : byte) : bytes :=
  [hex_digit (Byte.to_N b / 16); hex_digit (Byte.to_N b mod 16)].

Definition EncodeToString (b : bytes) : string :=
  string_of_list_byte (flat_map hex_of_byte b).

Fixpoint decode_pairs (cs : bytes) : option bytes :=
  match cs with
  | [] => Some []
  | hi :: cs' =>
      match cs' with
      | [] => None
      | lo :: rest =>
          match hex_value hi, hex_value lo, decode_pairs rest with
          | Some h, Some l, Some bs =>
              match Byte.of_N (16 * h + l) with
              | Some b => Some (b :: bs)
              | None => None
              end
          | _, _, _ => None
          end
      end
  end.

Definition DecodeString (s : string) : option bytes :=
  decode_pairs (list_byte_of_string s).

(** A stand-in for a hash function, for running the listings on examples. *)
Definition toy_hash (b : bytes) : bytes := "#"%byte :: b.

End Go.

(** *** Merkle trees (pkg/merkletree) *)

Module Merkle.

Import Go.

Section WithHash.

(** [sha256.Sum256], as a slice. *)
Variable sha256 : bytes -> bytes.

Inductive MerkleNode : Type :=
  Node (Left Right : option MerkleNode) (Data : bytes).

Definition Left (n : MerkleNode) := let 'Node l _ _ := n in l.
Definition Right (n : MerkleNode) := let 'Node _ r _ := n in r.
Definition Data (n : MerkleNode) := let 'Node _ _ d := n in d.

Record MerkleTree : Type := { RootNode : MerkleNode }.

Definition NewMerkleNode (left right : option MerkleNode) (data : bytes)
  : result MerkleNode :=
  match left, right with
  | None, None => Ok (Node left right (sha256 data))
  | Some l, Some r => Ok (Node left right (sha256 (Data l ++ Data r)))
  | None, Some _ => Panic NilDereference        (* left.Data *)
  | Some _, None => Panic NilDereference        (* right.Data *)
  end.

(** The inner loop: [for j := 0; j < len(nodes); j += 2], pairing
    [nodes[j]] with [nodes[j+1]]. *)
Fixpoint pair_level (nodes : list MerkleNode) : result (list MerkleNode) :=
  match nodes with
  | [] => Ok []
  | l :: rest =>
      match rest with
      | [] => Panic IndexOutOfRange             (* nodes[j+1] *)
      | r :: rest' =>
          node ← NewMerkleNode (Some l) (Some r) [];
          newLevel ← pair_level rest';
          Ok (node :: newLevel)
      end
  end.

(** The outer loop: [for i := 0; i < len(data)/2; i++]. *)
Fixpoint levels (n : nat) (nodes : list MerkleNode) : result (list MerkleNode) :=
  match n with
  | O => Ok nodes
  | S n' => newLevel ← pair_level nodes; levels n' newLevel
  end.

Fixpoint leaf_nodes (data : list bytes) : result (list MerkleNode) :=
  match data with
  | [] => Ok []
  | datum :: data' =>
      node ← NewMerkleNode None None datum;
      nodes ← leaf_nodes data';
      Ok (node :: nodes)
  end.

Definition NewMerkleTree (data : list bytes) : result MerkleTree :=
  data ← (if negb (List.length data mod 2 =? 0)%nat
          then last ← index data (Z.of_nat (List.length data) - 1); Ok (data ++ [last])
          else Ok data);
  nodes ← leaf_nodes data;
  nodes ← levels (List.length data / 2) nodes;
  root ← index nodes 0;
  Ok {| RootNode := root |}.

(** What a tree commits to: the hashes at its leaves, left to right. *)
Fixpoint leaf_hashes (n : MerkleNode) : list bytes :=
  match n with
  | Node (Some l) (Some r) _ => leaf_hashes l ++ leaf_hashes r
  | Node _ _ d => [d]
  end.

(** Every node with children has both, and holds the hash of their data. *)
Fixpoint hashed (n : MerkleNode) : Prop :=
  match n with
  | Node None None _ => True
  | Node (Some l) (Some r) d =>
      d = sha256 (Data l ++ Data r) /\ hashed l /\ hashed r
  | Node _ _ _ => False
  end.

(** The items with the last one repeated when their number is odd. *)
Definition padded (data : list bytes) : list bytes :=
  if Nat.odd (List.length data) then data ++ option_list (last data) else data.

End WithHash.

(** Which panic a result is, if any. *)
Definition outcome {A : Type} (r : result A) : option panic :=
  match r with
  | Ok _ => None
  | Panic p => Some p
  end.

End Merkle.


(** *** The first prototype (blockchain-in-go-1) *)

Module Chain.

Import Go.

Section WithHash.

(** [sha256.Sum256], as a slice. *)
Variable sha256 : bytes -> bytes.

Record Block : Type := {
  Timestamp : Z;
  Data : bytes;
  PrevBlockHash : bytes;
  Hash : bytes
}.

Definition SetHash (b : Block) : Block :=
  let timestamp := FormatInt10 (Timestamp b) in
  let headers := Join [PrevBlockHash b; Data b; timestamp] [] in
  let hash := sha256 headers in
  {| Timestamp := Timestamp b; Data := Data b;
     PrevBlockHash := PrevBlockHash b; Hash := hash |}.

(** [now] is what [time.Now().Unix()] returns at the call. *)
Definition NewBlock (now : Z) (data : string) (prevBlockHash : bytes) : Block :=
  let block := {| Timestamp := now; Data := list_byte_of_string data;
                  PrevBlockHash := prevBlockHash; Hash := [] |} in
  SetHash block.

Record Blockchain : Type := { blocks : list Block }.

Definition AddBlock (now : Z) (bc : Blockchain) (data : string)
  : result Blockchain :=
  prevBlock ← index (blocks bc) (Z.of_nat (List.length (blocks bc)) - 1);
  let newBlock := NewBlock now data (Hash prevBlock) in
  Ok {| blocks := blocks bc ++ [newBlock] |}.

Definition NewGenesisBlock (now : Z) : Block :=
  NewBlock now "Genesis Block" [].

Definition NewBlockchain (now : Z) : Blockchain :=
  {| blocks := [NewGenesisBlock now] |}.

(** Chains made by [NewBlockchain] and [AddBlock]. *)
Inductive built : Blockchain -> Prop :=
| built_new now : built (NewBlockchain now)
| built_add now bc data bc' :
    built bc -> AddBlock now bc data = Ok bc' -> built bc'.

(** A block carries the hash of its own header fields. *)
Definition sealed (b : Block) : Prop :=
  Hash b = sha256 (PrevBlockHash b ++ Data b ++ FormatInt10 (Timestamp b)).

(** Each block names the hash of the block before it. *)
Fixpoint linked (prev : bytes) (bs : list Block) : Prop :=
  match bs with
  | [] => True
  | b :: bs' => PrevBlockHash b = prev /\ linked (Hash b) bs'
  end.

End WithHash.

(** The chain of the listing's [main] after its first [AddBlock], with a
    clock that stands still. *)
Definition main_chain : Blockchain :=
  {| blocks :=
       [ NewBlock toy_hash 0 "Genesis Block" [];
         NewBlock toy_hash 0 "Send 1 BTC to Ivan"
           (Hash (NewBlock toy_hash 0 "Genesis Block" [])) ] |}.

End Chain.

(** *** Addresses (the wallet listings) *)

Module Wallet.

Import Go.

Section WithLibraries.

(** [sha256.Sum256] and the RIPEMD-160 hasher, as slices. *)
Variable sha256 : bytes -> bytes.
Variable ripemd160 : bytes -> bytes.

(** [base58.Encode] and [base58.Decode]. *)
Variable base58_Encode : bytes -> string.
Variable base58_Decode : string -> bytes.

(** [internal.Version], [internal.AddressChecksumLen], and the
    [addressChecksumLen] that [Lock] uses. *)
Variable Version : byte.
Variable AddressChecksumLen : Z.
Variable addressChecksumLen : Z.

(** [ecdsa.PrivateKey] *)
Variable PrivateKey : Type.

Record Wallet : Type := {
  WalletPrivateKey : PrivateKey;
  PublicKey : bytes
}.

Definition HashPubKey (pubKey : bytes) : bytes :=
  let publicSHA256 := sha256 pubKey in
  ripemd160 publicSHA256.

Definition checksum (payload : bytes) : result bytes :=
  let firstSHA := sha256 payload in
  let secondSHA := sha256 firstSHA in
  slice secondSHA 0 AddressChecksumLen.

Definition GetAddress (w : Wallet) : result bytes :=
  let pubKeyHash := HashPubKey (PublicKey w) in
  let versionedPayload := [Version] ++ pubKeyHash in
  checksum ← checksum versionedPayload;
  let fullPayload := versionedPayload ++ checksum in
  Ok (list_byte_of_string (base58_Encode fullPayload)).

Record TXInput : Type := {
  Txid : bytes;
  Vout : Z;
  Signature : bytes;
  PubKey : bytes
}.

Definition UsesKey (i : TXInput) (pubKeyHash : bytes) : bool :=
  let lockingHash := HashPubKey (PubKey i) in
  bytes_Equal lockingHash pubKeyHash.

Record TXOutput : Type := {
  Value : Z;
  PubKeyHash : bytes
}.

Definition Lock (out : TXOutput) (address : bytes) : result TXOutput :=
  let pubKeyHash := base58_Decode (string_of_list_byte address) in
  pubKeyHash ← slice pubKeyHash 1
                 (int_sub (Z.of_nat (List.length pubKeyHash)) addressChecksumLen);
  Ok {| Value := Value out; PubKeyHash := pubKeyHash |}.

Definition IsLockedWithKey (out : TXOutput) (pubKeyHash : bytes) : bool :=
  bytes_Equal (PubKeyHash out) pubKeyHash.

End WithLibraries.

(** A stand-in for a hash function with digests of [n] bytes. *)
Definition fixed_hash (n : nat) (b : bytes) : bytes :=
  take n (b ++ replicate n "000"%byte).

Definition example_wallet : Wallet unit :=
  {| WalletPrivateKey := tt; PublicKey := ["k"%byte; "e"%byte; "y"%byte] |}.

End Wallet.

(** *** Transactions with plain addresses (part 4) *)

Module Tx.

Import Go.

Record TXOutput : Type := {
  Value : Z;
  ScriptPubKey : string
}.

Record TXInput : Type := {
  Txid : bytes;
  Vout : Z;
  ScriptSig : string
}.

Record Transaction : Type := {
  ID : bytes;
  Vin : list TXInput;
  TxVout : list TXOutput
}.

Record Block : Type := {
  Timestamp : Z;
  Transactions : list Transaction;
  PrevBlockHash : bytes;
  Hash : bytes;
  Nonce : Z
}.

Definition CanBeUnlockedWith (out : TXOutput) (unlockingData : string) : bool :=
  String.eqb (ScriptPubKey out) unlockingData.

(** A blockchain is read through its iterator only; it is given here as
    the blocks that successive [bci.Next()] calls return, newest first. *)
Definition Blockchain := list Block.

Section WithMissing.

(** Called by the listings, defined by none of them. *)
Variable IsCoinbase : Transaction -> bool.
Variable CanUnlockOutputWith : TXInput -> string -> bool.
Variable SetID : Transaction -> Transaction.

(** The order in which [range] visits the entries of a map. *)
Variable visit : gmap string (list Z) -> list (string * list Z).

(** [m[k] = append(m[k], i)] *)
Definition push (m : gmap string (list Z)) (k : string) (i : Z)
  : gmap string (list Z) :=
  <[k := default [] (m !! k) ++ [i]]> m.

(** The [Outputs:] loop of [FindUnspentTransactions], from output [outIdx]. *)
Fixpoint unspent_outputs (tx : Transaction) (txID address : string)
    (spentTXOs : gmap string (list Z)) (outs : list TXOutput) (outIdx : Z)
    (unspentTXs : list Transaction) : list Transaction :=
  match outs with
  | [] => unspentTXs
  | out :: outs' =>
      let spent :=
        match spentTXOs !! txID with
        | Some spentOuts => existsb (fun spentOut => (spentOut =? outIdx)%Z) spentOuts
        | None => false
        end in
      let unspentTXs :=
        if spent then unspentTXs
        else if CanBeUnlockedWith out address then unspentTXs ++ [tx]
        else unspentTXs in
      unspent_outputs tx txID address spentTXOs outs' (outIdx + 1) unspentTXs
  end.

Fixpoint spend_inputs (address : string) (ins : list TXInput)
    (spentTXOs : gmap string (list Z)) : gmap string (list Z) :=
  match ins with
  | [] => spentTXOs
  | i :: ins' =>
      let spentTXOs :=
        if CanUnlockOutputWith i address
        then push spentTXOs (EncodeToString (Txid i)) (Vout i)
        else spentTXOs in
      spend_inputs address ins' spentTXOs
  end.

(** The body of [for _, tx := range block.Transactions]. *)
Definition visit_tx (address : string) (tx : Transaction)
    (st : list Transaction * gmap string (list Z))
  : list Transaction * gmap string (list Z) :=
  let '(unspentTXs, spentTXOs) := st in
  let txID := EncodeToString (ID tx) in
  let unspentTXs :=
    unspent_outputs tx txID address spentTXOs (TxVout tx) 0 unspentTXs in
  let spentTXOs :=
    if negb (IsCoinbase tx) then spend_inputs address (Vin tx) spentTXOs
    else spentTXOs in
  (unspentTXs, spentTXOs).

(** The outer [for]: one block per [bci.Next()], until the block with an
    empty previous hash.  Running out of blocks before that is a failed
    read inside [Next]. *)
Fixpoint visit_blocks (address : string) (bc : Blockchain)
    (st : list Transaction * gmap string (list Z))
  : result (list Transaction) :=
  match bc with
  | [] => Panic CheckFailed
  | block :: bc' =>
      let st := fold_left (fun st tx => visit_tx address tx st)
                  (Transactions block) st in
      if (List.length (PrevBlockHash block) =? 0)%nat then Ok (fst st)
      else visit_blocks address bc' st
  end.

Definition FindUnspentTransactions (bc : Blockchain) (address : string)
  : result (list Transaction) :=
  visit_blocks address bc ([], ∅).

Definition FindUTXO (bc : Blockchain) (address : string)
  : result (list TXOutput) :=
  unspentTransactions ← FindUnspentTransactions bc address;
  Ok (flat_map (fun tx => filter (fun out => CanBeUnlockedWith out address = true)
                            (TxVout tx))
        unspentTransactions).

(** [getBalance]: the balance it prints. *)
Definition getBalance (bc : Blockchain) (address : string) : result Z :=
  UTXOs ← FindUTXO bc address;
  Ok (fold_left (fun balance out => int_add balance (Value out)) UTXOs 0%Z).

(** The inner loop of [FindSpendableOutputs]; the flag says that
    [break Outputs] was taken. *)
Fixpoint spend_outputs (txID address : string) (amount : Z)
    (outs : list TXOutput) (outIdx : Z)
    (st : Z * gmap string (list Z)) : Z * gmap string (list Z) * bool :=
  match outs with
  | [] => (st, false)
  | out :: outs' =>
      let '(accumulated, unspentOutputs) := st in
      if CanBeUnlockedWith out address && (accumulated <? amount)%Z then
        let accumulated := int_add accumulated (Value out) in
        let unspentOutputs := push unspentOutputs txID outIdx in
        if (accumulated >=? amount)%Z then ((accumulated, unspentOutputs), true)
        else spend_outputs txID address amount outs' (outIdx + 1)
               (accumulated, unspentOutputs)
      else spend_outputs txID address amount outs' (outIdx + 1) st
  end.

Fixpoint spend_txs (address : string) (amount : Z)
    (unspentTXs : list Transaction) (st : Z * gmap string (list Z))
  : Z * gmap string (list Z) :=
  match unspentTXs with
  | [] => st
  | tx :: rest =>
      let txID := EncodeToString (ID tx) in
      let '(st, broke) := spend_outputs txID address amount (TxVout tx) 0 st in
      if broke then st else spend_txs address amount rest st
  end.

Definition FindSpendableOutputs (bc : Blockchain) (address : string) (amount : Z)
  : result (Z * gmap string (list Z)) :=
  unspentTXs ← FindUnspentTransactions bc address;
  Ok (spend_txs address amount unspentTXs (0%Z, ∅)).

(** The inputs built from one map entry. *)
Definition inputs_of (from : string) (entry : string * list Z)
  : result (list TXInput) :=
  match DecodeString (fst entry) with
  | Some txID =>
      Ok (map (fun out => {| Txid := txID; Vout := out; ScriptSig := from |})
            (snd entry))
  | None => Panic CheckFailed
  end.

Fixpoint build_inputs (from : string) (entries : list (string * list Z))
    (inputs : list TXInput) : result (list TXInput) :=
  match entries with
  | [] => Ok inputs
  | entry :: rest =>
      ins ← inputs_of from entry;
      build_inputs from rest (inputs ++ ins)
  end.

Definition NewUTXOTransaction (from to : string) (amount : Z) (bc : Blockchain)
  : result Transaction :=
  found ← FindSpendableOutputs bc from amount;
  let '(acc, validOutputs) := found in
  if (acc <? amount)%Z then Panic (LogPanic "ERROR: Not enough funds")
  else
    inputs ← build_inputs from (visit validOutputs) [];
    let outputs := [ {| Value := amount; ScriptPubKey := to |} ] in
    let outputs :=
      if (acc >? amount)%Z
      then outputs ++ [ {| Value := int_sub acc amount; ScriptPubKey := from |} ]
      else outputs in
    let tx := {| ID := []; Vin := inputs; TxVout := outputs |} in
    Ok (SetID tx).

End WithMissing.

(** The outputs of a transaction that an address unlocks, and the sum of
    the values of a list of outputs. *)
Definition unlockable (address : string) (tx : Transaction) : list TXOutput :=
  filter (fun out => CanBeUnlockedWith out address = true) (TxVout tx).

Definition total (outs : list TXOutput) : Z :=
  foldr (fun out s => (Value out + s)%Z) 0%Z outs.

(** A transaction that spends nothing of an address: a coinbase, or one
    with no input that the address unlocks. *)
Definition spends_nothing (IsCoinbase : Transaction -> bool)
    (CanUnlockOutputWith : TXInput -> string -> bool)
    (address : string) (tx : Transaction) : Prop :=
  IsCoinbase tx = true \/
  Forall (fun i => CanUnlockOutputWith i address = false) (Vin tx).

(** The blocks an iteration goes through: up to and with the first block
    whose previous hash is empty. *)
Fixpoint visited (bc : Blockchain) : option (list Block) :=
  match bc with
  | [] => None
  | block :: bc' =>
      if (List.length (PrevBlockHash block) =? 0)%nat then Some [block]
      else match visited bc' with
           | Some blocks => Some (block :: blocks)
           | None => None
           end
  end.

(** An input that refers to an output that the address unlocks, in one of
    the given transactions. *)
Definition spends_from (address : string) (txs : list Transaction) (i : TXInput)
  : Prop :=
  exists tx out, tx ∈ txs /\ Txid i = ID tx /\
                 index (TxVout tx) (Vout i) = Ok out /\
                 CanBeUnlockedWith out address = true.

(** The same of every output index kept in a map from transaction IDs, in
    hexadecimal, to indices. *)
Definition selects (address : string) (txs : list Transaction)
    (m : gmap string (list Z)) : Prop :=
  forall k idxs idx, m !! k = Some idxs -> idx ∈ idxs ->
    exists tx out, tx ∈ txs /\ k = EncodeToString (ID tx) /\
                   index (TxVout tx) idx = Ok out /\
                   CanBeUnlockedWith out address = true.

(** Stand-ins for the functions no listing defines, and a chain of one
    block whose only transaction pays 10 to Eddie. *)
Definition no_inputs (tx : Transaction) : bool :=
  match Vin tx with [] => true | _ => false end.

Definition signed_by (i : TXInput) (unlockingData : string) : bool :=
  String.eqb (ScriptSig i) unlockingData.

Definition keep_id (tx : Transaction) : Transaction := tx.

Definition in_key_order (m : gmap string (list Z)) : list (string * list Z) :=
  map_to_list m.

(** A genesis block whose one transaction pays Eddie twice, 6 and 4. *)
Definition twice_chain : Blockchain :=
  [ {| Timestamp := 0; PrevBlockHash := []; Hash := ["g"%byte]; Nonce := 0;
       Transactions :=
         [ {| ID := ["c"%byte]; Vin := [];
              TxVout := [ {| Value := 6; ScriptPubKey := "Eddie" |};
                          {| Value := 4; ScriptPubKey := "Eddie" |} ] |} ] |} ].

Definition eddie_chain : Blockchain :=
  [ {| Timestamp := 0; PrevBlockHash := []; Hash := ["g"%byte]; Nonce := 0;
       Transactions :=
         [ {| ID := ["c"%byte]; Vin := [];
              TxVout := [ {| Value := 10; ScriptPubKey := "Eddie" |} ] |} ] |} ].

End Tx.

(** *** The key-value store (bolt), as the listings use it *)

Module Bolt.

Import Go.

(** A bucket inside one transaction: keys to values. *)
Abbreviation Bucket := (gmap bytes bytes).

Definition MaxKeySize : Z := 32768.
Definition MaxValueSize : Z := 2147483646.

(** [b.Get(key)]: the value, or nil when the key is absent. *)
Definition Get (b : Bucket) (key : bytes) : bytes := default [] (b !! key).

(** [b.Put(key, value)] in a writable transaction; [None] is its error:
    an empty key, a key or a value that is too large. *)
Definition Put (b : Bucket) (key value : bytes) : option Bucket :=
  if (List.length key =? 0)%nat then None
  else if (MaxKeySize <? Z.of_nat (List.length key))%Z then None
  else if (MaxValueSize <? Z.of_nat (List.length value))%Z then None
  else Some (<[key := value]> b).

(** [b.Delete(key)] in a writable transaction. *)
Definition Delete (b : Bucket) (key : bytes) : Bucket := delete key b.

(** Keys compare byte by byte. *)
Fixpoint bytes_leb (a b : bytes) : bool :=
  match a, b with
  | [], _ => true
  | _ :: _, [] => false
  | x :: a', y :: b' =>
      if (Byte.to_N x <? Byte.to_N y)%N then true
      else if (Byte.to_N x =? Byte.to_N y)%N then bytes_leb a' b'
      else false
  end.

(** What a cursor goes through from [First] by [Next]: the entries in key
    order. *)
Definition key_le (p q : bytes * bytes) : Prop :=
  bytes_leb (fst p) (fst q) = true.

#[global] Instance key_le_dec (p q : bytes * bytes) : Decision (key_le p q).
Proof. unfold key_le. apply _. Defined.

Definition cursor (b : Bucket) : list (bytes * bytes) :=
  merge_sort key_le (map_to_list b).

(** [err := b.Put(...); utils.Check(err)] *)
Definition checked_Put (b : Bucket) (key value : bytes) : result Bucket :=
  match Put b key value with
  | Some b' => Ok b'
  | None => Panic CheckFailed
  end.

Definition valid_key (key : bytes) : Prop :=
  (0 < Z.of_nat (List.length key) <= MaxKeySize)%Z.

Definition valid_value (value : bytes) : Prop :=
  (Z.of_nat (List.length value) <= MaxValueSize)%Z.

End Bolt.

(** *** The set of unspent outputs (part 6) *)

Module Utxo.

Import Go Bolt.

(** Inputs and outputs are those of the address listings. *)
Abbreviation TXInput := Wallet.TXInput.
Abbreviation TXOutput := Wallet.TXOutput.

Record Transaction : Type := {
  ID : bytes;
  Vin : list TXInput;
  Vout : list TXOutput
}.

Record Block : Type := {
  Timestamp : Z;
  Transactions : list Transaction;
  PrevBlockHash : bytes;
  Hash : bytes;
  Nonce : Z
}.

(** What is stored under a transaction's ID. *)
Record TXOutputs : Type := { Outputs : list TXOutput }.

(** The bucket named [internal.UtxoBucket]: [None] when [tx.Bucket]
    returns nil. *)
Definition UTXOSet := option Bucket.

Section WithMissing.

(** Called by the listings, defined by none of them. *)
Variable Serialize : TXOutputs -> bytes.
Variable DeserializeOutputs : bytes -> result TXOutputs.
Variable IsCoinbase : Transaction -> bool.

(** [for outIdx, out := range outs.Outputs] of [FindSpendableOutputs]. *)
Fixpoint spend_outputs (txID : string) (pubKeyHash : bytes) (amount : Z)
    (outs : list TXOutput) (outIdx : Z)
    (st : Z * gmap string (list Z)) : Z * gmap string (list Z) :=
  match outs with
  | [] => st
  | out :: outs' =>
      let '(accumlated, unspentOutputs) := st in
      let st :=
        if Wallet.IsLockedWithKey out pubKeyHash && (accumlated <? amount)%Z
        then (int_add accumlated (Wallet.Value out),
              Tx.push unspentOutputs txID outIdx)
        else st in
      spend_outputs txID pubKeyHash amount outs' (outIdx + 1) st
  end.

(** The cursor loop of [FindSpendableOutputs]. *)
Fixpoint spend_entries (pubKeyHash : bytes) (amount : Z)
    (entries : list (bytes * bytes)) (st : Z * gmap string (list Z))
  : result (Z * gmap string (list Z)) :=
  match entries with
  | [] => Ok st
  | (k, v) :: rest =>
      let txID := EncodeToString k in
      outs ← DeserializeOutputs v;
      spend_entries pubKeyHash amount rest
        (spend_outputs txID pubKeyHash amount (Outputs outs) 0 st)
  end.

Definition FindSpendableOutputs (u : UTXOSet) (pubKeyHash : bytes) (amount : Z)
  : result (Z * gmap string (list Z)) :=
  match u with
  | None => Panic NilDereference                 (* b.Cursor() *)
  | Some b => spend_entries pubKeyHash amount (cursor b) (0%Z, ∅)
  end.

(** The cursor loop of [FindUTXO]. *)
Fixpoint utxo_entries (pubKeyHash : bytes) (entries : list (bytes * bytes))
    (UTXOs : list TXOutput) : result (list TXOutput) :=
  match entries with
  | [] => Ok UTXOs
  | (k, v) :: rest =>
      outs ← DeserializeOutputs v;
      utxo_entries pubKeyHash rest
        (UTXOs ++ filter (fun out => Wallet.IsLockedWithKey out pubKeyHash = true)
                    (Outputs outs))
  end.

Definition FindUTXO (u : UTXOSet) (pubKeyHash : bytes) : result (list TXOutput) :=
  match u with
  | None => Panic NilDereference                 (* b.Cursor() *)
  | Some b => utxo_entries pubKeyHash (cursor b) []
  end.

(** [for outIdx, out := range outs.Outputs] of [Update]: the outputs
    whose index is not [vout]. *)
Fixpoint keep_others (outs : list TXOutput) (outIdx vout : Z) : list TXOutput :=
  match outs with
  | [] => []
  | out :: outs' =>
      if negb (outIdx =? vout)%Z then out :: keep_others outs' (outIdx + 1) vout
      else keep_others outs' (outIdx + 1) vout
  end.

(** The body of [for _, vin := range tx.Vin]. *)
Definition spend_input (b : Bucket) (vin : TXInput) : result Bucket :=
  let outsBytes := Get b (Wallet.Txid vin) in
  outs ← DeserializeOutputs outsBytes;
  let updateOuts := {| Outputs := keep_others (Outputs outs) 0 (Wallet.Vout vin) |} in
  if (List.length (Outputs updateOuts) =? 0)%nat
  then Ok (Delete b (Wallet.Txid vin))
  else checked_Put b (Wallet.Txid vin) (Serialize updateOuts).

Fixpoint spend_inputs (b : Bucket) (ins : list TXInput) : result Bucket :=
  match ins with
  | [] => Ok b
  | vin :: ins' => b ← spend_input b vin; spend_inputs b ins'
  end.

(** The body of [for _, tx := range block.Transactions]. *)
Definition update_tx (b : Bucket) (tx : Transaction) : result Bucket :=
  b ← (if negb (IsCoinbase tx) then spend_inputs b (Vin tx) else Ok b);
  let newOutputs := {| Outputs := [] ++ Vout tx |} in
  checked_Put b (ID tx) (Serialize newOutputs).

Fixpoint update_txs (b : Bucket) (txs : list Transaction) : result Bucket :=
  match txs with
  | [] => Ok b
  | tx :: txs' => b ← update_tx b tx; update_txs b txs'
  end.

Definition Update (u : UTXOSet) (block : Block) : result UTXOSet :=
  match u with
  | None =>
      match Transactions block with
      | [] => Ok None
      | _ :: _ => Panic NilDereference           (* b.Get or b.Put *)
      end
  | Some b => b ← update_txs b (Transactions block); Ok (Some b)
  end.

End WithMissing.

Section WithHash.

(** [sha256.Sum256] and the missing [tx.Serialize]. *)
Variable sha256 : bytes -> bytes.
Variable SerializeTx : Transaction -> bytes.

(** [HashTransactions] of part 6: the root of the Merkle tree over the
    serialized transactions. *)
Definition HashTransactions (b : Block) : result bytes :=
  let transactions := map SerializeTx (Transactions b) in
  mTree ← Merkle.NewMerkleTree sha256 transactions;
  Ok (Merkle.Data (Merkle.RootNode mTree)).

End WithHash.

(** A blockchain is read through its iterator only; it is given here as
    the blocks that successive [bci.Next()] calls return, newest first. *)
Definition Blockchain := list Block.

(** The inner [for] of [FindTransaction]. *)
Fixpoint find_in (txs : list Transaction) (ID' : bytes) : option Transaction :=
  match txs with
  | [] => None
  | tx :: txs' => if bytes_Equal (ID tx) ID' then Some tx else find_in txs' ID'
  end.

(** [FindTransaction]: [Ok None] is its error "transaction not found";
    running out of blocks before the first one is a failed read in
    [Next]. *)
Fixpoint FindTransaction (bc : Blockchain) (ID' : bytes)
  : result (option Transaction) :=
  match bc with
  | [] => Panic CheckFailed
  | block :: bc' =>
      match find_in (Transactions block) ID' with
      | Some tx => Ok (Some tx)
      | None =>
          if (List.length (PrevBlockHash block) =? 0)%nat then Ok None
          else FindTransaction bc' ID'
      end
  end.

(** The blocks an iteration goes through when nothing stops it early. *)
Fixpoint visited (bc : Blockchain) : option (list Block) :=
  match bc with
  | [] => None
  | block :: bc' =>
      if (List.length (PrevBlockHash block) =? 0)%nat then Some [block]
      else match visited bc' with
           | Some blocks => Some (block :: blocks)
           | None => None
           end
  end.

Definition total (outs : list TXOutput) : Z :=
  foldr (fun out s => (Wallet.Value out + s)%Z) 0%Z outs.

(** The outputs of a stored entry that a key unlocks, nothing for an entry
    that does not decode. *)
Definition locked_in (DeserializeOutputs : bytes -> result TXOutputs)
    (pubKeyHash : bytes) (entry : bytes * bytes) : list TXOutput :=
  match DeserializeOutputs (snd entry) with
  | Ok outs =>
      filter (fun out => Wallet.IsLockedWithKey out pubKeyHash = true) (Outputs outs)
  | Panic _ => []
  end.

Definition decodes (DeserializeOutputs : bytes -> result TXOutputs)
    (entry : bytes * bytes) : Prop :=
  exists outs, DeserializeOutputs (snd entry) = Ok outs.

(** Three outputs of one earlier transaction, stored under its ID, and a
    transaction that spends the first and the last of them.  The codec
    stands in for the missing one: it tells stored lists apart by length. *)
Definition three_outputs : list TXOutput :=
  [ {| Wallet.Value := 1; Wallet.PubKeyHash := ["a"%byte] |};
    {| Wallet.Value := 2; Wallet.PubKeyHash := ["a"%byte] |};
    {| Wallet.Value := 4; Wallet.PubKeyHash := ["a"%byte] |} ].

Definition by_length (x : TXOutputs) : bytes :=
  replicate (Nat.min 3 (List.length (Outputs x))) "o"%byte.

Definition from_length (v : bytes) : result TXOutputs :=
  match List.length v with
  | 3 => Ok {| Outputs := three_outputs |}
  | 2 => Ok {| Outputs := delete 0 three_outputs |}
  | _ => Panic CheckFailed
  end.

Definition earlier_id : bytes := ["e"%byte].

Definition three_stored : Bucket :=
  {[ earlier_id := by_length {| Outputs := three_outputs |} ]}.




(** A block whose one transaction is a coinbase paying 4 to the key [a],
    for a store that is empty, and a codec for just that. *)
Definition reward : Transaction :=
  {| ID := ["r"%byte]; Vin := [];
     Vout := [ {| Wallet.Value := 4; Wallet.PubKeyHash := ["a"%byte] |} ] |}.

Definition reward_block : Block :=
  {| Timestamp := 0; Transactions := [reward];
     PrevBlockHash := []; Hash := ["h"%byte]; Nonce := 0 |}.

Definition always_coinbase (tx : Transaction) : bool := true.

Definition reward_codec (v : bytes) : result TXOutputs :=
  match List.length v with
  | 1 => Ok {| Outputs := Vout reward |}
  | _ => Panic CheckFailed
  end.

End Utxo.

(** *** Persistence (part 3) *)

Module Persist.

Import Go Bolt.

Section WithMissing.

(** The block type of this part and the functions that make blocks are in
    none of the listings: a type with the two fields the listings read. *)
Variable Block : Type.
Variable Hash : Block -> bytes.
Variable PrevBlockHash : Block -> bytes.
Variable NewBlock : Z -> string -> bytes -> Block.
Variable NewGenesisBlock : Z -> Block.

(** [encoder.Encode] and [decoder.Decode] of encoding/gob; [None] is an
    error. *)
Variable gob_Encode : Block -> option bytes.
Variable gob_Decode : bytes -> option Block.

Definition Serialize (b : Block) : result bytes :=
  match gob_Encode b with
  | Some result => Ok result
  | None => Panic CheckFailed
  end.

Definition DeserializeBlock (data : bytes) : result Block :=
  match gob_Decode data with
  | Some block => Ok block
  | None => Panic CheckFailed
  end.

(** The database: the bucket named [blockBucket], [None] while it does
    not exist. *)
Definition DB := option Bucket.

Record Blockchain : Type := {
  tip : bytes;
  db : DB
}.

(** The key under which the hash of the last block is kept. *)
Definition l : bytes := list_byte_of_string "l".

(** [now] is the time at which a new block is made. *)
Definition NewBlockchain (now : Z) (file : DB) : result Blockchain :=
  match file with
  | None =>
      let genesis := NewGenesisBlock now in
      let b : Bucket := ∅ in
      encoded ← Serialize genesis;
      b ← checked_Put b (Hash genesis) encoded;
      b ← checked_Put b l (Hash genesis);
      Ok {| tip := Hash genesis; db := Some b |}
  | Some b => Ok {| tip := Get b l; db := Some b |}
  end.

Definition AddBlock (now : Z) (bc : Blockchain) (data : string)
  : result Blockchain :=
  match db bc with
  | None => Panic NilDereference                 (* b.Get on a nil bucket *)
  | Some b =>
      let lastHash := Get b l in
      let newBlock := NewBlock now data lastHash in
      encoded ← Serialize newBlock;
      b ← checked_Put b (Hash newBlock) encoded;
      b ← checked_Put b l (Hash newBlock);
      Ok {| tip := Hash newBlock; db := Some b |}
  end.

Record BlockchainIterator : Type := {
  currentHash : bytes;
  iterator_db : DB
}.

Definition Iterator (bc : Blockchain) : BlockchainIterator :=
  {| currentHash := tip bc; iterator_db := db bc |}.

(** [Next] returns the block and leaves the iterator at the block before. *)
Definition Next (bci : BlockchainIterator) : result (Block * BlockchainIterator) :=
  match iterator_db bci with
  | None => Panic NilDereference
  | Some b =>
      let encodedBlock := Get b (currentHash bci) in
      block ← DeserializeBlock encodedBlock;
      Ok (block, {| currentHash := PrevBlockHash block;
                    iterator_db := iterator_db bci |})
  end.

(** The loop of [printChain]: the blocks it prints, in order.  [fuel]
    bounds the number of rounds; [None] means the loop was still running
    when it ran out. *)
Fixpoint printChain (fuel : nat) (bci : BlockchainIterator)
  : option (result (list Block)) :=
  match fuel with
  | O => None
  | S fuel' =>
      match Next bci with
      | Panic p => Some (Panic p)
      | Ok (block, bci') =>
          if (List.length (PrevBlockHash block) =? 0)%nat then Some (Ok [block])
          else
            match printChain fuel' bci' with
            | Some (Ok blocks) => Some (Ok (block :: blocks))
            | other => other
            end
      end
  end.

(** A chain together with the blocks put into it, newest first: made in an
    empty store by [NewBlockchain], grown by [AddBlock], where no new block
    has the hash of an earlier one and no hash is the key [l]. *)
Inductive stored : Blockchain -> list Block -> Prop :=
| stored_new now bc :
    NewBlockchain now None = Ok bc ->
    Hash (NewGenesisBlock now) <> l ->
    stored bc [NewGenesisBlock now]
| stored_add now bc data bc' blocks b :
    stored bc blocks ->
    db bc = Some b ->
    AddBlock now bc data = Ok bc' ->
    Hash (NewBlock now data (Get b l)) <> l ->
    Hash (NewBlock now data (Get b l)) ∉ map Hash blocks ->
    stored bc' (NewBlock now data (Get b l) :: blocks).

(** What the store holds for a list of blocks, newest first. *)
Fixpoint chained (blocks : list Block) : Prop :=
  match blocks with
  | [] => False
  | block :: rest =>
      match rest with
      | [] => PrevBlockHash block = []
      | before :: _ => PrevBlockHash block = Hash before /\ chained rest
      end
  end.

Definition kept (b : Bucket) (block : Block) : Prop :=
  Hash block <> [] /\
  exists encoded, b !! Hash block = Some encoded /\ gob_Decode encoded = Some block.

End WithMissing.

(** Stand-ins for the missing parts: blocks of the first prototype, hashed
    with [toy_hash], and a codec that knows two blocks and writes each as
    its hash. *)
Definition toy_block (now : Z) (data : string) (prev : bytes) : Chain.Block :=
  Chain.NewBlock toy_hash now data prev.

Definition toy_genesis (now : Z) : Chain.Block := Chain.NewGenesisBlock toy_hash now.

#[global] Instance Block_eq_dec : EqDecision Chain.Block.
Proof. solve_decision. Defined.

Definition first_block : Chain.Block := toy_genesis 0.

Definition second_block : Chain.Block :=
  toy_block 0 "Send 1 BTC to Ivan" (Chain.Hash first_block).

Definition encode_known (b : Chain.Block) : option bytes :=
  if bool_decide (b = first_block \/ b = second_block)
  then Some (Chain.Hash b) else None.

Definition decode_known (data : bytes) : option Chain.Block :=
  if bool_decide (data = Chain.Hash first_block) then Some first_block
  else if bool_decide (data = Chain.Hash second_block) then Some second_block
  else None.

Definition one_block_store : Bucket :=
  <[l := Chain.Hash first_block]>
    (<[Chain.Hash first_block := Chain.Hash first_block]> ∅).

Definition one_block_chain : Blockchain :=
  {| tip := Chain.Hash first_block; db := Some one_block_store |}.

Definition two_block_chain : Blockchain :=
  {| tip := Chain.Hash second_block;
     db := Some (<[l := Chain.Hash second_block]>
                   (<[Chain.Hash second_block := Chain.Hash second_block]>
                      one_block_store)) |}.

End Persist.

(** ** Shapes of project records and author references *)

Import Text.
Import Header.

(** The field names of a project record, and its shape: an object with
    these fields and no others, each holding a string. *)
Definition project_fields : list string :=
  ["title"; "description"; "imgSrc"; "href"].

Definition project_shape (r : JS.data) : Prop :=
  exists ps, r = JS.DObj ps /\ JS.keys ps = project_fields /\
             Forall (fun kv => exists s, snd kv = JS.DStr s) ps.

(** The form every projects module is written in. *)
Definition projects_module (es : list JS.expr) : JS.module :=
  [ JS.Const "projectsData" (JS.Arr es);
    JS.ExportDefault (JS.Ident "projectsData") ].

(** A post whose author names are all found in a given list of defined
    authors. *)
Definition authors_resolve (defined : list string) (f : file) : Prop :=
  exists p, read_post f = Some p /\ Forall (fun a => In a defined) (authors p).

(** ** Part 3: theory of the module semantics *)

Module JSFacts.

Import JS.

(** Induction on expressions that reaches inside object and array literals. *)
Lemma expr_nested_ind (P : expr -> Prop) :
  (forall s, P (Str s)) ->
  (forall s, P (Tpl s)) ->
  (forall ps, Forall (fun kv => P (snd kv)) ps -> P (Obj ps)) ->
  (forall es, Forall P es -> P (Arr es)) ->
  (forall x, P (Ident x)) ->
  forall e, P e.
Proof.
  intros HStr HTpl HObj HArr HId.
  fix IH 1. intros [s | s | ps | es | x].
  - apply HStr.
  - apply HTpl.
  - apply HObj. induction ps as [| [k e] ps IHps]; constructor.
    + apply IH.
    + exact IHps.
  - apply HArr. induction es as [| e es IHes]; constructor.
    + apply IH.
    + exact IHes.
  - apply HId.
Qed.

Lemma eval_Obj ρ ps h :
  eval ρ (Obj ps) h =
  match eval_props ρ ps [] h with
  | Some (acc, h') => Some (alloc (CObj acc) h')
  | None => None
  end.
Proof.
  cbn [eval].
  match goal with
  | |- match ?loop ps [] h with _ => _ end = _ =>
      assert (Hloop : forall acc h0, loop ps acc h0 = eval_props ρ ps acc h0)
  end.
  { induction ps as [| [k e] ps IH]; intros acc h0; [reflexivity |].
    cbn [eval_props]. destruct (eval ρ e h0) as [[v h1] |]; [apply IH | reflexivity]. }
  rewrite Hloop. reflexivity.
Qed.

Lemma eval_Arr ρ es h :
  eval ρ (Arr es) h =
  match eval_elems ρ es [] h with
  | Some (acc, h') => Some (alloc (CArr acc) h')
  | None => None
  end.
Proof.
  cbn [eval].
  match goal with
  | |- match ?loop es [] h with _ => _ end = _ =>
      assert (Hloop : forall acc h0, loop es acc h0 = eval_elems ρ es acc h0)
  end.
  { induction es as [| e es IH]; intros acc h0; [reflexivity |].
    cbn [eval_elems]. destruct (eval ρ e h0) as [[v h1] |]; [apply IH | reflexivity]. }
  rewrite Hloop. reflexivity.
Qed.

(** Allocation takes an unused location, so it leaves every cell alone. *)
Lemma alloc_grows c h v h' : alloc c h = (v, h') -> h ⊆ h'.
Proof.
  unfold alloc. intros [= _ <-]. apply insert_subseteq.
  apply not_elem_of_dom. apply is_fresh.
Qed.

(** Evaluating an expression only adds cells. *)
Lemma eval_grows ρ e : forall h v h', eval ρ e h = Some (v, h') -> h ⊆ h'.
Proof.
  induction e as [s | s | ps IHps | es IHes | x] using expr_nested_ind;
    intros h v h'.
  - intros [= _ <-]. done.
  - intros [= _ <-]. done.
  - rewrite eval_Obj.
    assert (Hloop : forall acc h0 acc' h1,
               eval_props ρ ps acc h0 = Some (acc', h1) -> h0 ⊆ h1).
    { induction IHps as [| [k e] ps He _ IH]; intros acc h0 acc' h1; cbn.
      - intros [= _ <-]. done.
      - destruct (eval ρ e h0) as [[v0 h2] |] eqn:E; [| done].
        intros Hrest. etrans; [exact (He _ _ _ E) | exact (IH _ _ _ _ Hrest)]. }
    destruct (eval_props ρ ps [] h) as [[acc h1] |] eqn:E; [| done].
    intros Ha. etrans; [exact (Hloop _ _ _ _ E) |].
    injection Ha as _ <-. exact (alloc_grows _ _ _ _ eq_refl).
  - rewrite eval_Arr.
    assert (Hloop : forall acc h0 acc' h1,
               eval_elems ρ es acc h0 = Some (acc', h1) -> h0 ⊆ h1).
    { induction IHes as [| e es He _ IH]; intros acc h0 acc' h1; cbn.
      - intros [= _ <-]. done.
      - destruct (eval ρ e h0) as [[v0 h2] |] eqn:E; [| done].
        intros Hrest. etrans; [exact (He _ _ _ E) | exact (IH _ _ _ _ Hrest)]. }
    destruct (eval_elems ρ es [] h) as [[acc h1] |] eqn:E; [| done].
    intros Ha. etrans; [exact (Hloop _ _ _ _ E) |].
    injection Ha as _ <-. exact (alloc_grows _ _ _ _ eq_refl).
  - cbn. destruct (ρ !! x); [| done]. intros [= _ <-]. done.
Qed.

(** What can be read through a value stays readable, and reads the same,
    in any larger heap. *)
Lemma read_grows d (h h' : heap) :
  h ⊆ h' -> forall v x, read d h v = Some x -> read d h' v = Some x.
Proof.
  intros Hsub. induction d as [| d IH]; intros [s | l] x; cbn; try done.
  destruct (h !! l) as [c |] eqn:Hl; [| done].
  rewrite (lookup_weaken _ _ _ _ Hl Hsub).
  destruct c as [ps | vs].
  - destruct (mapM _ ps) as [ds |] eqn:E; [| done]. intros [= <-].
    apply mapM_Some in E.
    assert (E' : mapM (fun kv => pair kv.1 <$> read d h' kv.2) ps = Some ds).
    { apply mapM_Some. eapply Forall2_impl; [exact E |].
      intros [k v] [k' y]; cbn. destruct (read d h v) as [y0 |] eqn:R; [| done].
      rewrite (IH _ _ R). done. }
    rewrite E'. done.
  - destruct (mapM _ vs) as [ds |] eqn:E; [| done]. intros [= <-].
    apply mapM_Some in E.
    assert (E' : mapM (read d h') vs = Some ds).
    { apply mapM_Some. eapply Forall2_impl; [exact E |]. intros v y. apply IH. }
    rewrite E'. done.
Qed.

(** The step relation is the graph of [exec]. *)
Lemma step_exec σ s k c :
  step (σ, s :: k) c <-> exists σ', exec s σ = Some σ' /\ c = (σ', k).
Proof.
  split.
  - inversion 1 as [? x e ? v h' Hfree Hv | ? e ? v h' Hfree Hv]; subst; cbn;
      rewrite Hfree, Hv; eauto.
  - intros (σ' & He & ->). destruct s as [x e | e]; cbn in He.
    + destruct (bindings σ !! x) eqn:Hx; [done |].
      destruct (eval (bindings σ) e (cells σ)) as [[v h'] |] eqn:Hv; [| done].
      injection He as <-. by constructor.
    + destruct (exported σ) eqn:Hx; [done |].
      destruct (eval (bindings σ) e (cells σ)) as [[v h'] |] eqn:Hv; [| done].
      injection He as <-. by constructor.
Qed.

Lemma step_nil σ c : ~ step (σ, []) c.
Proof. inversion 1. Qed.

(** A configuration has at most one successor. *)
Lemma step_deterministic c c1 c2 : step c c1 -> step c c2 -> c1 = c2.
Proof.
  destruct c as [σ [| s k]]; [intros H; by apply step_nil in H |].
  intros (σ1 & H1 & ->)%step_exec (σ2 & H2 & ->)%step_exec. congruence.
Qed.

(** Complete runs are the graph of [run]. *)
Lemma steps_run m : forall σ σ', steps (σ, m) (σ', []) <-> run m σ = Some σ'.
Proof.
  induction m as [| s k IH]; intros σ σ'; cbn.
  - split.
    + inversion 1 as [| ? c2 ? Hs]; subst; [done |]. by apply step_nil in Hs.
    + intros [= ->]. constructor.
  - split.
    + inversion 1 as [| ? c2 ? Hs Hrest]; subst.
      apply step_exec in Hs as (σ1 & He & ->).
      rewrite He. by apply IH.
    + destruct (exec s σ) as [σ1 |] eqn:He; [| done]. intros Hr.
      econstructor; [apply step_exec; eauto | by apply IH].
Qed.

(** Hence a module has at most one final state. *)
Lemma evaluates_unique m σ1 σ2 : evaluates m σ1 -> evaluates m σ2 -> σ1 = σ2.
Proof.
  unfold evaluates. rewrite !steps_run. congruence.
Qed.

Lemma extends_refl σ : extends σ σ.
Proof. by constructor. Qed.

Lemma extends_trans σ1 σ2 σ3 : extends σ1 σ2 -> extends σ2 σ3 -> extends σ1 σ3.
Proof.
  intros [B1 C1 X1 R1] [B2 C2 X2 R2]. constructor; [by etrans | by etrans | auto ..].
Qed.

(** No step changes anything that exists. *)
Lemma step_extends σ k σ' k' : step (σ, k) (σ', k') -> extends σ σ'.
Proof.
  intros Hstep.
  assert (Hg : cells σ ⊆ cells σ').
  { inversion Hstep; subst; cbn; eapply eval_grows; eassumption. }
  inversion Hstep; subst; constructor; cbn in *;
    [by apply insert_subseteq | done | done | intros d; by apply read_grows
    | done | done | congruence | intros d; by apply read_grows].
Qed.

Lemma steps_extends c c' : steps c c' -> extends c.1 c'.1.
Proof.
  induction 1 as [c | [σ1 k1] [σ2 k2] c3 H1 _ IH]; [apply extends_refl |].
  eapply extends_trans; [exact (step_extends _ _ _ _ H1) | exact IH].
Qed.

End JSFacts.

(** ** Part 4: theory of the header reader *)

Module HeaderFacts.

(** Only the lines up to the closing [---] matter: whatever body follows
    the embedded head of a file, the header read is the same. *)
Lemma until_fence_app ls hd body :
  until_fence ls = Some hd -> until_fence (ls ++ body) = Some hd.
Proof.
  revert hd. induction ls as [| l ls IH]; intros hd; cbn; [done |].
  destruct (String.eqb l "---"); [done |].
  destruct (until_fence ls) as [hd' |]; [| done].
  intros [= <-]. by rewrite (IH hd').
Qed.

Lemma read_header_app ls m body :
  read_header ls = Some m -> read_header (ls ++ body) = Some m.
Proof.
  unfold read_header, front_matter. destruct ls as [| l ls]; [done |]. cbn.
  destruct (String.eqb l "---"); [| done].
  destruct (until_fence ls) as [hd |] eqn:E; [| done].
  by rewrite (until_fence_app _ _ body E).
Qed.

Lemma as_string_Some n s : as_string n = Some s -> n = YStr s.
Proof. destruct n; cbn; congruence. Qed.

Lemma as_bool_Some n b : as_bool n = Some b -> n = YBool b.
Proof. destruct n; cbn; congruence. Qed.

Lemma as_strings_Some n l : as_strings n = Some l -> n = YSeq (map YStr l).
Proof.
  destruct n as [| | | | items]; cbn; try done.
  intros H. f_equal. apply mapM_Some in H.
  induction H as [| n s items l Hn _ IH]; cbn; [done |].
  by rewrite (as_string_Some _ _ Hn), IH.
Qed.

(** A header that yields a post record is well formed, with the record's
    fields as the header's values. *)
Lemma to_post_fields m p :
  to_post m = Some p ->
  lookup "title" m = Some (YStr (title p)) /\
  lookup "date" m = Some (YStr (date p)) /\
  lookup "tags" m = Some (YSeq (map YStr (tags p))) /\
  lookup "draft" m = Some (YBool (draft p)) /\
  lookup "summary" m = Some (YStr (summary p)) /\
  lookup "authors" m = Some (YSeq (map YStr (authors p))).
Proof.
  unfold to_post. intros H.
  destruct (lookup "title" m) as [n1 |]; [| done]. cbn in H.
  destruct (as_string n1) as [t |] eqn:E1; [| done]. cbn in H.
  destruct (lookup "date" m) as [n2 |]; [| done]. cbn in H.
  destruct (as_string n2) as [d |] eqn:E2; [| done]. cbn in H.
  destruct (lookup "tags" m) as [n3 |]; [| done]. cbn in H.
  destruct (as_strings n3) as [tg |] eqn:E3; [| done]. cbn in H.
  destruct (match lookup "lastmod" m with
            | Some n => Some <$> as_string n
            | None => Some None
            end) as [lm |]; [| done]. cbn in H.
  destruct (lookup "draft" m) as [n4 |]; [| done]. cbn in H.
  destruct (as_bool n4) as [dr |] eqn:E4; [| done]. cbn in H.
  destruct (lookup "summary" m) as [n5 |]; [| done]. cbn in H.
  destruct (as_string n5) as [sm |] eqn:E5; [| done]. cbn in H.
  destruct (lookup "authors" m) as [n6 |]; [| done]. cbn in H.
  destruct (as_strings n6) as [au |] eqn:E6; [| done]. cbn in H.
  injection H as <-. cbn.
  rewrite (as_string_Some _ _ E1), (as_string_Some _ _ E2),
    (as_strings_Some _ _ E3), (as_bool_Some _ _ E4),
    (as_string_Some _ _ E5), (as_strings_Some _ _ E6).
  done.
Qed.

Lemma to_post_well_formed m p : to_post m = Some p -> well_formed m.
Proof.
  intros (H1 & H2 & H3 & H4 & H5 & H6)%to_post_fields.
  unfold well_formed. repeat split; eexists; eassumption.
Qed.

(** The reader on small inputs. *)
Example quoted_scalar : read_value (list_ascii_of_string " 'it''s'") = Some (YStr "it's").
Proof. reflexivity. Qed.

Example plain_words :
  map (fun s => read_value (list_ascii_of_string s)) [" true"; " yes"; " 12"; ""; " a: b"]
  = [Some (YBool true); Some (YStr "yes"); Some (YInt 12); Some YNull; None].
Proof. vm_compute. reflexivity. Qed.

Example sequences :
  map (fun s => read_value (list_ascii_of_string s)) [" []"; " ['a', b]"; " ['a' 'b']"; " ['a'"]
  = [Some (YSeq []); Some (YSeq [YStr "a"; YStr "b"]); None; None].
Proof. vm_compute. reflexivity. Qed.

Example unclosed_header : read_header ["---"; "title: 'x'"] = None.
Proof. reflexivity. Qed.

Example repeated_key : read_header ["---"; "draft: true"; "draft: false"; "---"] = None.
Proof. vm_compute. reflexivity. Qed.

Example draft_must_be_boolean :
  (read_header ["---"; "title: 't'"; "date: '2022-01-01'"; "tags: []";
                "draft: 'no'"; "summary: s"; "authors: []"; "---"] ≫= to_post) = None.
Proof. vm_compute. reflexivity. Qed.

Example dates :
  map valid_date ["2022-09-16"; "2024-02-29"; "2023-02-29"; "2022-13-01";
                  "2022-04-31"; "2022-9-16"; "2022/09/16"; "16-09-2022"]
  = [true; true; false; false; false; false; false; false].
Proof. vm_compute. reflexivity. Qed.

Example urls :
  map Url.valid_url ["https://www.google.com"; "http://a.b:80/x%20y"; "ftp://a.b";
                     "https://"; "https://a b"; "/static/images/x.png"; "www.google.com"]
  = [true; true; false; false; false; false; false].
Proof. vm_compute. reflexivity. Qed.

End HeaderFacts.

(** ** Part 5: content integrity *)

Ltac each_of H :=
  cbn in H; repeat (destruct H as [<- | H]); [.. | contradiction].

Ltac for_each tac := repeat (constructor 2; [tac |]); constructor 1.

(** C1. Every record of every exported projects list has a non-empty
    string as its title and an absolute http or https URL as its href. *)
Theorem project_title_and_url (m : JS.module) :
  In m JS.modules ->
  exists rs, JS.default_export m = Some (JS.DArr rs) /\
    Forall (fun r => exists t h,
              JS.field "title" r = Some t /\ t <> "" /\
              JS.field "href" r = Some h /\ Url.valid_url h = true) rs.
Proof.
  intros H. each_of H;
    (eexists; split; [vm_compute; reflexivity |]);
    for_each ltac:(do 2 eexists;
                   split; [reflexivity |]; split; [discriminate |];
                   split; [reflexivity | vm_compute; reflexivity]).
Qed.

Lemma project_title_and_url_witness :
  In JS.projectsData_2 JS.modules /\
  exists rs, JS.default_export JS.projectsData_2 = Some (JS.DArr rs) /\
    Forall (fun r => exists t h,
              JS.field "title" r = Some t /\ t <> "" /\
              JS.field "href" r = Some h /\ Url.valid_url h = true) rs.
Proof.
  assert (H : In JS.projectsData_2 JS.modules) by (simpl; auto).
  split; [exact H | exact (project_title_and_url JS.projectsData_2 H)].
Defined.

(** C6. The default export of every projects module is the list of the
    records written in its array literal, one per element and in the order
    written, and every record has exactly the four fields title,
    description, imgSrc and href. *)
Theorem projects_ordered_fixed_shape (m : JS.module) :
  In m JS.modules ->
  exists es rs,
    m = projects_module es /\
    JS.default_export m = Some (JS.DArr rs) /\
    Forall2 (fun e r => JS.literal e = Some r) es rs /\
    Forall project_shape rs.
Proof.
  intros H. each_of H;
    (eexists _, _; split; [reflexivity |]; split; [vm_compute; reflexivity |];
     split;
     [ repeat (constructor 2; [reflexivity |]); constructor 1
     | for_each ltac:(eexists; split; [reflexivity |]; split; [reflexivity |];
                      for_each ltac:(eexists; reflexivity)) ]).
Qed.

Lemma projects_ordered_fixed_shape_witness :
  In JS.projectsData_js JS.modules /\
  exists es rs,
    JS.projectsData_js = projects_module es /\
    JS.default_export JS.projectsData_js = Some (JS.DArr rs) /\
    Forall2 (fun e r => JS.literal e = Some r) es rs /\
    Forall project_shape rs.
Proof.
  assert (H : In JS.projectsData_js JS.modules) by (simpl; auto).
  split; [exact H | exact (projects_ordered_fixed_shape JS.projectsData_js H)].
Defined.

(** C9. In every record of every exported projects list, imgSrc starts
    with /static/images/ and ends in .png or .jpg, and href starts with
    https://. *)
Theorem project_image_and_link (m : JS.module) :
  In m JS.modules ->
  exists rs, JS.default_export m = Some (JS.DArr rs) /\
    Forall (fun r => exists i h,
              JS.field "imgSrc" r = Some i /\
              starts_with "/static/images/" i = true /\
              (ends_with ".png" i = true \/ ends_with ".jpg" i = true) /\
              JS.field "href" r = Some h /\
              starts_with "https://" h = true) rs.
Proof.
  intros H. each_of H;
    (eexists; split; [vm_compute; reflexivity |]);
    for_each ltac:(do 2 eexists;
                   split; [reflexivity |]; split; [vm_compute; reflexivity |];
                   split; [first [left; vm_compute; reflexivity
                                 | right; vm_compute; reflexivity] |];
                   split; [reflexivity | vm_compute; reflexivity]).
Qed.

Lemma project_image_and_link_witness :
  In JS.projectsData_1 JS.modules /\
  exists rs, JS.default_export JS.projectsData_1 = Some (JS.DArr rs) /\
    Forall (fun r => exists i h,
              JS.field "imgSrc" r = Some i /\
              starts_with "/static/images/" i = true /\
              (ends_with ".png" i = true \/ ends_with ".jpg" i = true) /\
              JS.field "href" r = Some h /\
              starts_with "https://" h = true) rs.
Proof.
  assert (H : In JS.projectsData_1 JS.modules) by (simpl; auto).
  split; [exact H | exact (project_image_and_link JS.projectsData_1 H)].
Defined.

(** What the projects modules show of static data on their own: every
    module evaluates, any two evaluations of it end in the same state, so
    they export equal lists, and no statement of a module changes a
    binding, a heap cell, or a record read through it, once it exists.
    The exported list is an ordinary array all the same: nothing in a
    module freezes it, and what importers do with it, like what makes
    records of the post files, is code outside these modules. *)
Lemma projects_modules_static (m : JS.module) :
  In m JS.modules ->
  (exists σ rs, JS.evaluates m σ /\ JS.export_of σ = Some (JS.DArr rs)) /\
  (forall σ1 σ2, JS.evaluates m σ1 -> JS.evaluates m σ2 ->
                 σ1 = σ2 /\ JS.export_of σ1 = JS.export_of σ2) /\
  (forall c c', JS.steps (JS.init, m) c -> JS.steps c c' ->
                JS.extends (fst c) (fst c')).
Proof.
  intros H. split; [| split].
  - assert (Hrun : exists σ rs, JS.run m JS.init = Some σ /\
                                JS.export_of σ = Some (JS.DArr rs)).
    { each_of H; (eexists _, _; split; vm_compute; reflexivity). }
    destruct Hrun as (σ & rs & Hr & He). exists σ, rs. split; [| exact He].
    by apply JSFacts.steps_run.
  - intros σ1 σ2 H1 H2. pose proof (JSFacts.evaluates_unique _ _ _ H1 H2) as ->. done.
  - intros c c' _ Hs. by apply JSFacts.steps_extends.
Qed.

(** C2. The header of every post reads as a well-formed record: it
    has the six fields title, date, tags, draft, summary and authors, with
    title and summary strings, tags and authors lists of strings, and draft
    a boolean. *)
Theorem post_header_well_formed (f : file) :
  In f posts ->
  exists m p, read_header (head f) = Some m /\ well_formed m /\
              to_post m = Some p.
Proof.
  intros H.
  assert (Hp : exists m p, read_header (head f) = Some m /\ to_post m = Some p).
  { each_of H; (eexists _, _; split; vm_compute; reflexivity). }
  destruct Hp as (m & p & Hm & Hp). exists m, p.
  split; [exact Hm |]. split; [exact (HeaderFacts.to_post_well_formed _ _ Hp) | exact Hp].
Qed.

Lemma post_header_well_formed_witness :
  In persistence_and_cli posts /\
  exists m p, read_header (head persistence_and_cli) = Some m /\ well_formed m /\
              to_post m = Some p.
Proof.
  assert (H : In persistence_and_cli posts) by (simpl; auto 8).
  split; [exact H | exact (post_header_well_formed persistence_and_cli H)].
Defined.

(** C3. The tags of every post form a set of non-empty strings: no tag is
    the empty string and no tag occurs twice in the same list. *)
Theorem post_tags_set (f : file) :
  In f posts ->
  exists p, read_post f = Some p /\
            Forall (fun t => t <> "") (tags p) /\ NoDup (tags p).
Proof.
  intros H. each_of H;
    (eexists; split; [vm_compute; reflexivity |]; cbn; split;
     [ for_each ltac:(discriminate)
     | apply (bool_decide_unpack _); vm_compute; reflexivity ]).
Qed.

Lemma post_tags_set_witness :
  In linear_regression posts /\
  exists p, read_post linear_regression = Some p /\
            Forall (fun t => t <> "") (tags p) /\ NoDup (tags p).
Proof.
  assert (H : In linear_regression posts) by (simpl; auto 8).
  split; [exact H | exact (post_tags_set linear_regression H)].
Defined.

(** C5. Every date field of every post header, date and lastmod when it is
    there, is a calendar date written YYYY-MM-DD. *)
Theorem post_dates_well_formed (f : file) :
  In f posts ->
  exists p, read_post f = Some p /\
            Forall (fun d => valid_date d = true) (dates_of p).
Proof.
  intros H. each_of H;
    (eexists; split; [vm_compute; reflexivity |]; cbn;
     for_each ltac:(vm_compute; reflexivity)).
Qed.

Lemma post_dates_well_formed_witness :
  In addresses posts /\
  exists p, read_post addresses = Some p /\
            Forall (fun d => valid_date d = true) (dates_of p).
Proof.
  assert (H : In addresses posts) by (simpl; auto 8).
  split; [exact H | exact (post_dates_well_formed addresses H)].
Defined.

(** C10. Every post has a non-empty authors list, and eddieho is in it. *)
Theorem post_authored_by_eddieho (f : file) :
  In f posts ->
  exists p, read_post f = Some p /\
            authors p <> [] /\ In "eddieho" (authors p).
Proof.
  intros H. each_of H;
    (eexists; split; [vm_compute; reflexivity |]; cbn; split;
     [discriminate | left; reflexivity]).
Qed.

Lemma post_authored_by_eddieho_witness :
  In blockchain_in_go_1 posts /\
  exists p, read_post blockchain_in_go_1 = Some p /\
            authors p <> [] /\ In "eddieho" (authors p).
Proof.
  assert (H : In blockchain_in_go_1 posts) by (simpl; auto 8).
  split; [exact H | exact (post_authored_by_eddieho blockchain_in_go_1 H)].
Defined.

(** C8. Two different post files carry the title
    'Building blockchain in Go. Part 6: Transactions 2', the date and
    lastmod '2022-09-16' and the same summary, one as a draft and the other
    not; so title and date together do not determine a post's record. *)
Theorem part_6_twice :
  (exists f g p q,
      In f posts /\ In g posts /\ path f <> path g /\
      read_post f = Some p /\ read_post g = Some q /\
      title p = "Building blockchain in Go. Part 6: Transactions 2" /\
      title q = "Building blockchain in Go. Part 6: Transactions 2" /\
      date p = "2022-09-16" /\ date q = "2022-09-16" /\
      lastmod p = Some "2022-09-16" /\ lastmod q = Some "2022-09-16" /\
      summary p = summary q /\
      draft p = true /\ draft q = false) /\
  ~ (forall f g p q,
        In f posts -> In g posts ->
        read_post f = Some p -> read_post g = Some q ->
        title p = title q -> date p = date q -> p = q).
Proof.
  assert (Hf : In blockchain_in_go_part_6 posts) by (simpl; auto 8).
  assert (Hg : In blockchain_blockchain_in_go_part_6 posts) by (simpl; auto 8).
  split.
  - eexists blockchain_in_go_part_6, blockchain_blockchain_in_go_part_6, _, _.
    split; [exact Hf |]. split; [exact Hg |]. split; [discriminate |].
    split; [vm_compute; reflexivity |]. split; [vm_compute; reflexivity |].
    cbn. repeat split.
  - intros Huniq.
    specialize (Huniq _ _ _ _ Hf Hg eq_refl eq_refl eq_refl eq_refl).
    discriminate Huniq.
Qed.

(** Which author names the posts refer to: the references of all posts
    resolve in a list of defined authors exactly when it has these three. *)
Lemma authors_referenced (defined : list string) :
  (forall f, In f posts -> authors_resolve defined f) <->
  In "eddieho" defined /\ In "sparrowhawk" defined /\ In "chatgpt" defined.
Proof.
  split.
  - intros Hall.
    assert (H1 : In blockchain_in_go_1 posts) by (simpl; auto 8).
    assert (H2 : In linear_regression posts) by (simpl; auto 8).
    destruct (Hall _ H1) as (p1 & R1 & A1). destruct (Hall _ H2) as (p2 & R2 & A2).
    vm_compute in R1, R2. injection R1 as <-. injection R2 as <-. cbn in A1, A2.
    rewrite !Forall_cons in A1, A2. tauto.
  - intros (He & Hs & Hc) f Hf. each_of Hf;
      (eexists; split; [vm_compute; reflexivity |]; cbn;
       for_each ltac:(assumption)).
Qed.

(** ** Part 7: properties of the Go listings *)

(** Arithmetic with a quotient or remainder by two. *)
Ltac halves e :=
  pose proof (Nat.div_mod_eq e 2); pose proof (Nat.mod_upper_bound e 2); lia.

Module GoFacts.

Import Go.

Lemma bind_Ok {A B : Type} (a : A) (k : A -> result B) : (Ok a ≫= k) = k a.
Proof. reflexivity. Qed.

Lemma bind_Panic {A B : Type} (p : panic) (k : A -> result B) :
  (Panic p ≫= k) = Panic p.
Proof. reflexivity. Qed.

Lemma wrap_id (z : Z) : in_int z -> wrap z = z.
Proof.
  unfold in_int, wrap. intros Hz.
  rewrite Z.mod_small by lia. lia.
Qed.

Lemma wrap_in_int (z : Z) : in_int (wrap z).
Proof.
  unfold in_int, wrap. pose proof (Z.mod_pos_bound (z + 2 ^ 63) (2 ^ 64)). lia.
Qed.

Lemma hex_of_byte_decodes (b : byte) (rest : bytes) :
  decode_pairs (hex_of_byte b ++ rest)
  = match decode_pairs rest with Some bs => Some (b :: bs) | None => None end.
Proof.
  destruct b; cbn [hex_of_byte app decode_pairs];
    destruct (decode_pairs rest); reflexivity.
Qed.

(** Decoding undoes encoding, so distinct byte strings have distinct
    encodings. *)
Lemma DecodeString_EncodeToString (b : bytes) :
  DecodeString (EncodeToString b) = Some b.
Proof.
  unfold DecodeString, EncodeToString.
  rewrite list_byte_of_string_of_list_byte.
  induction b as [| x b IH]; [done |].
  cbn [flat_map]. by rewrite hex_of_byte_decodes, IH.
Qed.

Lemma EncodeToString_inj (a b : bytes) :
  EncodeToString a = EncodeToString b -> a = b.
Proof.
  intros H. apply (f_equal DecodeString) in H.
  rewrite !DecodeString_EncodeToString in H. congruence.
Qed.

End GoFacts.

Module MerkleFacts.

Import Go Merkle GoFacts.

Section WithHash.

Variable sha256 : bytes -> bytes.

Lemma leaf_nodes_spec (data : list bytes) :
  leaf_nodes sha256 data = Ok (map (fun d => Node None None (sha256 d)) data).
Proof.
  induction data as [| d data IH]; cbn; [done |]. by rewrite IH.
Qed.

(** One level: an even number of nodes halves, an odd number fails at
    the missing partner of the last node. *)
Lemma pair_level_even (nodes : list MerkleNode) (q : nat) :
  List.length nodes = 2 * q ->
  exists out, pair_level sha256 nodes = Ok out /\ List.length out = q.
Proof.
  revert nodes. induction q as [| q IH]; intros nodes Hlen.
  - destruct nodes; [by exists [] | done].
  - destruct nodes as [| l [| r rest]]; cbn in Hlen; try lia.
    destruct (IH rest) as (out & Hout & Hq); [lia |].
    exists (Node (Some l) (Some r) (sha256 (Data l ++ Data r)) :: out).
    cbn. rewrite Hout. cbn. by rewrite Hq.
Qed.

Lemma pair_level_odd (nodes : list MerkleNode) (q : nat) :
  List.length nodes = 2 * q + 1 ->
  pair_level sha256 nodes = Panic IndexOutOfRange.
Proof.
  revert nodes. induction q as [| q IH]; intros nodes Hlen.
  - by destruct nodes as [| l [| r rest]].
  - destruct nodes as [| l [| r rest]]; cbn in Hlen; try lia.
    cbn. rewrite (IH rest); [done | lia].
Qed.

Lemma levels_exact (n : nat) : forall (nodes : list MerkleNode) (q : nat),
  List.length nodes = 2 ^ n * q ->
  exists out, levels sha256 n nodes = Ok out /\ List.length out = q.
Proof.
  induction n as [| n IH]; intros nodes q Hlen; cbn in *.
  - exists nodes. split; [done | lia].
  - destruct (pair_level_even nodes (2 ^ n * q)) as (mid & Hmid & Hq); [lia |].
    rewrite Hmid. cbn. by apply IH.
Qed.

Lemma levels_short (n : nat) : forall nodes : list MerkleNode,
  0 < List.length nodes < 2 ^ n ->
  levels sha256 n nodes = Panic IndexOutOfRange.
Proof.
  induction n as [| n IH]; intros nodes Hlen; cbn in *; [lia |].
  destruct (Nat.Even_or_Odd (List.length nodes)) as [[q Hq] | [q Hq]].
  - destruct (pair_level_even nodes q) as (mid & Hmid & Hlq); [done |].
    rewrite Hmid. cbn. apply IH. lia.
  - by rewrite (pair_level_odd nodes q).
Qed.

Lemma levels_length (n : nat) : forall nodes out : list MerkleNode,
  levels sha256 n nodes = Ok out -> List.length nodes = 2 ^ n * List.length out.
Proof.
  induction n as [| n IH]; intros nodes out; cbn.
  - intros [= ->]. lia.
  - destruct (Nat.Even_or_Odd (List.length nodes)) as [[q Hq] | [q Hq]].
    + destruct (pair_level_even nodes q) as (mid & Hmid & Hlq); [done |].
      rewrite Hmid. cbn. intros Hout%IH. lia.
    + by rewrite (pair_level_odd nodes q).
Qed.

Lemma pow2_gt (k : nat) : 3 <= k -> 2 * k < 2 ^ k.
Proof.
  induction 1 as [| k Hk IH]; [cbn; lia |]. rewrite Nat.pow_succ_r'. lia.
Qed.

Lemma padded_length (data : list bytes) :
  List.length (padded data) = 2 * ((List.length data + 1) / 2).
Proof.
  unfold padded. destruct (Nat.odd (List.length data)) eqn:Hodd.
  - destruct (last data) as [x |] eqn:Hlast.
    + rewrite length_app. change (List.length (option_list (Some x))) with 1.
      apply Nat.odd_spec in Hodd as [q Hq]. halves (List.length data + 1).
    + apply last_None in Hlast. by subst.
  - assert (Nat.even (List.length data) = true) as [q Hq]%Nat.even_spec.
    { by rewrite <- Nat.negb_odd, Hodd. }
    halves (List.length data + 1).
Qed.

(** The padding step of [NewMerkleTree] yields [padded]. *)
Lemma pad_step (data : list bytes) :
  (if negb (List.length data mod 2 =? 0)%nat
   then last ← index data (Z.of_nat (List.length data) - 1); Ok (data ++ [last])
   else Ok data) = Ok (padded data).
Proof.
  unfold padded.
  assert (Hpar : negb (List.length data mod 2 =? 0)%nat = Nat.odd (List.length data)).
  { destruct (Nat.odd (List.length data)) eqn:Hodd.
    - apply Nat.odd_spec in Hodd as [q Hq].
      apply negb_true_iff, Nat.eqb_neq. halves (List.length data).
    - assert (Nat.even (List.length data) = true) as [q Hq]%Nat.even_spec.
      { by rewrite <- Nat.negb_odd, Hodd. }
      apply negb_false_iff, Nat.eqb_eq. halves (List.length data). }
  rewrite Hpar. destruct (Nat.odd (List.length data)) eqn:Hodd; [| done].
  destruct (last data) as [x |] eqn:Hlast.
  - unfold index. rewrite last_lookup in Hlast.
    destruct (Z.of_nat (List.length data) - 1 <? 0)%Z eqn:Hneg.
    + apply Z.ltb_lt in Hneg. destruct data; cbn in *; [done | lia].
    + replace (Z.to_nat (Z.of_nat (List.length data) - 1))
        with (Nat.pred (List.length data)) by lia.
      by rewrite Hlast.
  - apply last_None in Hlast. by subst.
Qed.

Lemma NewMerkleTree_long (data : list bytes) :
  5 <= List.length data -> NewMerkleTree sha256 data = Panic IndexOutOfRange.
Proof.
  intros Hlen. unfold NewMerkleTree.
  rewrite pad_step, bind_Ok, leaf_nodes_spec, bind_Ok.
  pose proof (padded_length data) as Hpad.
  set (k := (List.length data + 1) / 2) in *.
  assert (Hk : 3 <= k) by (subst k; halves (List.length data + 1)).
  assert (Hhalf : List.length (padded data) / 2 = k).
  { rewrite Hpad. halves (2 * k). }
  rewrite Hhalf, levels_short; [done |].
  rewrite length_map, Hpad. pose proof (pow2_gt k Hk). lia.
Qed.

(** X1. [NewMerkleTree] builds a tree for one to four items and for no
    other number: with no item, or with five or more, it stops with an
    index out of range. *)
Theorem NewMerkleTree_one_to_four (data : list bytes) :
  outcome (NewMerkleTree sha256 data) =
  if bool_decide (1 <= List.length data <= 4) then None
  else Some IndexOutOfRange.
Proof.
  destruct data as [| a [| b [| c [| d [| e rest]]]]]; try reflexivity.
  rewrite NewMerkleTree_long by (cbn; lia).
  rewrite bool_decide_eq_false_2; [done | cbn; lia].
Qed.

(** X2. A tree that [NewMerkleTree] returns is hashed throughout, and its
    leaves are the hashes of the items in order, the last item counted
    twice when their number is odd. *)
Theorem NewMerkleTree_commits (data : list bytes) (t : MerkleTree) :
  NewMerkleTree sha256 data = Ok t ->
  hashed sha256 (RootNode t) /\
  leaf_hashes (RootNode t) = map sha256 (padded data).
Proof.
  destruct data as [| a [| b [| c [| d [| e rest]]]]].
  1-5: by (intros [= <-]; cbn; repeat split).
  rewrite NewMerkleTree_long by (cbn; lia). done.
Qed.

Lemma repeats_last_padded (data : list bytes) (x : bytes) :
  Nat.even (List.length data) = true ->
  NewMerkleTree sha256 (data ++ [x]) = NewMerkleTree sha256 (data ++ [x; x]).
Proof.
  intros [q Hq]%Nat.even_spec. unfold NewMerkleTree. rewrite !pad_step.
  assert (Hpad : padded (data ++ [x]) = padded (data ++ [x; x])).
  { unfold padded. rewrite !length_app. cbn [List.length].
    replace (Nat.odd (List.length data + 1)) with true
      by (symmetry; apply Nat.odd_spec; exists q; lia).
    replace (Nat.odd (List.length data + 2)) with false.
    - rewrite last_snoc. cbn. by rewrite <- app_assoc.
    - symmetry. rewrite <- Nat.negb_even. apply negb_false_iff.
      apply Nat.even_spec. exists (q + 1). lia. }
  by rewrite Hpad.
Qed.

(** X3. An odd list of items and the same list with its last item repeated
    give the same result: the same tree, or the same panic. *)
Theorem NewMerkleTree_repeats_last (data : list bytes) (x : bytes) :
  Nat.even (List.length data) = true ->
  NewMerkleTree sha256 (data ++ [x]) = NewMerkleTree sha256 (data ++ [x; x]).
Proof. apply repeats_last_padded. Qed.

End WithHash.

Lemma NewMerkleTree_commits_witness :
  exists t, NewMerkleTree toy_hash [["a"%byte]; ["b"%byte]; ["c"%byte]] = Ok t /\
    hashed toy_hash (RootNode t) /\
    leaf_hashes (RootNode t)
    = map toy_hash (padded [["a"%byte]; ["b"%byte]; ["c"%byte]]).
Proof.
  eexists. split; [reflexivity |].
  apply (NewMerkleTree_commits toy_hash [["a"%byte]; ["b"%byte]; ["c"%byte]]).
  reflexivity.
Defined.

Lemma NewMerkleTree_repeats_last_witness :
  Nat.even (List.length [["a"%byte]; ["b"%byte]]) = true /\
  NewMerkleTree toy_hash ([["a"%byte]; ["b"%byte]] ++ [["c"%byte]]) =
  NewMerkleTree toy_hash ([["a"%byte]; ["b"%byte]] ++ [["c"%byte]; ["c"%byte]]).
Proof.
  split; [reflexivity |].
  apply (NewMerkleTree_repeats_last toy_hash [["a"%byte]; ["b"%byte]] ["c"%byte]).
  reflexivity.
Defined.

End MerkleFacts.

Module ChainFacts.

Import Go Chain GoFacts.

Section WithHash.

Variable sha256 : bytes -> bytes.

Lemma NewBlock_sealed now data prev : sealed sha256 (NewBlock sha256 now data prev).
Proof. reflexivity. Qed.

Lemma index_last {A : Type} (s : list A) :
  index s (Z.of_nat (List.length s) - 1)
  = match last s with Some x => Ok x | None => Panic IndexOutOfRange end.
Proof.
  unfold index. rewrite last_lookup.
  destruct s as [| a s]; [done |].
  destruct (Z.of_nat (List.length (a :: s)) - 1 <? 0)%Z eqn:Hneg.
  - apply Z.ltb_lt in Hneg. cbn in Hneg. lia.
  - replace (Z.to_nat (Z.of_nat (List.length (a :: s)) - 1))
      with (Nat.pred (List.length (a :: s))) by lia.
    done.
Qed.

Lemma linked_snoc prev bs b :
  linked prev (bs ++ [b]) <->
  linked prev bs /\
  PrevBlockHash b = match last bs with Some l => Hash l | None => prev end.
Proof.
  revert prev. induction bs as [| a bs IH]; intros prev.
  - cbn. tauto.
  - cbn [app linked]. rewrite IH. destruct bs as [| a' bs].
    + cbn. tauto.
    + rewrite last_cons_cons.
      destruct (last (a' :: bs)) eqn:Hlast; [tauto |].
      by apply last_None in Hlast.
Qed.

(** What [AddBlock] does to a chain. *)
Lemma AddBlock_spec now bc data :
  AddBlock sha256 now bc data
  = match last (blocks bc) with
    | Some l => Ok {| blocks := blocks bc ++ [NewBlock sha256 now data (Hash l)] |}
    | None => Panic IndexOutOfRange
    end.
Proof.
  unfold AddBlock. rewrite index_last. by destruct (last (blocks bc)).
Qed.

Lemma built_nonempty (bc : Blockchain) :
  built sha256 bc -> exists l, last (blocks bc) = Some l.
Proof.
  induction 1 as [now | now bc data bc' Hb IH Hadd]; [by eexists |].
  rewrite AddBlock_spec in Hadd. destruct IH as (l & Hl). rewrite Hl in Hadd.
  injection Hadd as <-. cbn. rewrite last_snoc. by eexists.
Qed.

(** X4. In every chain made by [NewBlockchain] and [AddBlock] the first
    block is the genesis block with an empty previous hash, every later
    block names the hash of the block before it, and every block carries
    the hash of its own previous hash, data and decimal timestamp. *)
Theorem built_chain_linked (bc : Blockchain) :
  built sha256 bc ->
  (exists g rest, blocks bc = g :: rest /\
                  Data g = list_byte_of_string "Genesis Block") /\
  linked [] (blocks bc) /\
  Forall (sealed sha256) (blocks bc).
Proof.
  induction 1 as [now | now bc data bc' Hb IH Hadd].
  - split; [by eexists _, _ |]. split; [done |].
    constructor; [apply NewBlock_sealed | constructor].
  - destruct IH as ((g & rest & Hg & Hdata) & Hlink & Hseal).
    rewrite AddBlock_spec in Hadd.
    destruct (last (blocks bc)) as [l |] eqn:Hlast; [| done].
    injection Hadd as <-. cbn. split; [| split].
    + rewrite Hg. by eexists _, _.
    + apply linked_snoc. rewrite Hlast. by split.
    + apply Forall_app. split; [done |].
      constructor; [apply NewBlock_sealed | constructor].
Qed.

(** X17. The hash of a block does not record where its previous hash ends
    and its data begins: moving the first byte of the data to the end of
    the previous hash gives a different block with the same hash. *)
Theorem hash_blind_to_field_boundary
    (now : Z) (c : ascii) (data : string) (prev : bytes) :
  Hash (NewBlock sha256 now (String c data) prev)
  = Hash (NewBlock sha256 now data (prev ++ [byte_of_ascii c])) /\
  NewBlock sha256 now (String c data) prev
  <> NewBlock sha256 now data (prev ++ [byte_of_ascii c]).
Proof.
  split.
  - cbn. by rewrite <- !app_assoc.
  - intros Heq. apply (f_equal PrevBlockHash) in Heq. cbn in Heq.
    apply (f_equal List.length) in Heq. rewrite length_app in Heq.
    cbn in Heq. lia.
Qed.

(** X5. [AddBlock] never fails on a chain made by [NewBlockchain] and
    [AddBlock]: it keeps every block and puts one block after them, holding
    the given data.  On a [Blockchain] with no block it stops with an index
    out of range. *)
Theorem AddBlock_on_built (bc : Blockchain) (now : Z) (data : string) :
  built sha256 bc ->
  AddBlock sha256 now {| blocks := [] |} data = Panic IndexOutOfRange /\
  exists b, AddBlock sha256 now bc data = Ok {| blocks := blocks bc ++ [b] |} /\
            Data b = list_byte_of_string data /\ Timestamp b = now.
Proof.
  intros Hb. split; [done |].
  destruct (built_nonempty bc Hb) as (l & Hlast).
  rewrite AddBlock_spec, Hlast. by eexists.
Qed.

End WithHash.

Lemma main_chain_built : built toy_hash main_chain.
Proof.
  apply (built_add toy_hash 0 (NewBlockchain toy_hash 0) "Send 1 BTC to Ivan").
  - apply built_new.
  - reflexivity.
Defined.

Lemma built_chain_linked_witness :
  built toy_hash main_chain /\
  (exists g rest, blocks main_chain = g :: rest /\
                  Data g = list_byte_of_string "Genesis Block") /\
  linked [] (blocks main_chain) /\
  Forall (sealed toy_hash) (blocks main_chain).
Proof.
  split; [exact main_chain_built |].
  exact (built_chain_linked toy_hash main_chain main_chain_built).
Defined.

Lemma AddBlock_on_built_witness :
  built toy_hash main_chain /\
  AddBlock toy_hash 7 {| blocks := [] |} "Send 2 more BTC to Ivan"
  = Panic IndexOutOfRange /\
  exists b, AddBlock toy_hash 7 main_chain "Send 2 more BTC to Ivan"
            = Ok {| blocks := blocks main_chain ++ [b] |} /\
            Data b = list_byte_of_string "Send 2 more BTC to Ivan" /\
            Timestamp b = 7%Z.
Proof.
  split; [exact main_chain_built |].
  exact (AddBlock_on_built toy_hash main_chain 7 "Send 2 more BTC to Ivan"
           main_chain_built).
Defined.

End ChainFacts.

Module WalletFacts.

Import Go Wallet GoFacts.

Lemma slice_take_drop {A : Type} (s : list A) (i n : nat) :
  i + n <= List.length s ->
  slice s (Z.of_nat i) (Z.of_nat (i + n)) = Ok (take n (drop i s)).
Proof.
  intros Hlen. unfold slice.
  replace ((0 <=? Z.of_nat i) && (Z.of_nat i <=? Z.of_nat (i + n))
           && (Z.of_nat (i + n) <=? Z.of_nat (List.length s)))%Z with true.
  - rewrite !Nat2Z.id. by replace (i + n - i) with n by lia.
  - symmetry. rewrite !andb_true_iff, !Z.leb_le. lia.
Qed.

Section WithLibraries.

Variable sha256 : bytes -> bytes.
Variable ripemd160 : bytes -> bytes.
Variable base58_Encode : bytes -> string.
Variable base58_Decode : string -> bytes.
Variable Version : byte.
Variable AddressChecksumLen : Z.
Variable addressChecksumLen : Z.
Variable PrivateKey : Type.

Hypothesis base58_round_trip : forall b, base58_Decode (base58_Encode b) = b.

(** What [Lock] makes of the encoding of a payload laid out as a version
    byte, a key hash and a checksum. *)
Lemma Lock_payload (out : TXOutput) (v : byte) (h c : bytes) :
  Z.of_nat (List.length c) = addressChecksumLen ->
  (Z.of_nat (List.length h) + addressChecksumLen < 2 ^ 62)%Z ->
  Lock base58_Decode addressChecksumLen out
    (list_byte_of_string (base58_Encode (v :: h ++ c)))
  = Ok {| Value := Value out; PubKeyHash := h |}.
Proof.
  intros Hc Hsmall. unfold Lock.
  rewrite string_of_list_byte_of_string, base58_round_trip.
  assert (Hlen : List.length (v :: h ++ c) = 1 + List.length h + List.length c).
  { cbn. rewrite length_app. lia. }
  unfold int_sub. rewrite wrap_id by (unfold in_int; lia).
  replace (Z.of_nat (List.length (v :: h ++ c)) - addressChecksumLen)%Z
    with (Z.of_nat (1 + List.length h)) by lia.
  rewrite (slice_take_drop _ 1 (List.length h)) by lia.
  rewrite bind_Ok. change (drop 1 (v :: h ++ c)) with (h ++ c).
  by rewrite take_app_length.
Qed.

(** X6. Locking an output to a wallet's own address locks it with that
    wallet's public-key hash: the address decodes back to the hash, so the
    wallet's key opens the output and an input carrying the wallet's public
    key uses the key the output is locked with. *)
Theorem lock_to_own_address (w : Wallet PrivateKey) (out : TXOutput) :
  (forall b, List.length (sha256 b) = 32) ->
  (forall b, List.length (ripemd160 b) = 20) ->
  AddressChecksumLen = addressChecksumLen ->
  (0 <= AddressChecksumLen <= 32)%Z ->
  exists address out',
    GetAddress sha256 ripemd160 base58_Encode Version AddressChecksumLen
      PrivateKey w = Ok address /\
    Lock base58_Decode addressChecksumLen out address = Ok out' /\
    Value out' = Value out /\
    PubKeyHash out' = HashPubKey sha256 ripemd160 (PublicKey PrivateKey w) /\
    IsLockedWithKey out'
      (HashPubKey sha256 ripemd160 (PublicKey PrivateKey w)) = true /\
    forall i : TXInput,
      PubKey i = PublicKey PrivateKey w ->
      UsesKey sha256 ripemd160 i (PubKeyHash out') = true.
Proof.
  intros Hsha Hrip Hsame Hrange.
  set (h := HashPubKey sha256 ripemd160 (PublicKey PrivateKey w)).
  set (s := sha256 (sha256 ([Version] ++ h))).
  assert (Hcs : checksum sha256 AddressChecksumLen ([Version] ++ h)
                = Ok (take (Z.to_nat AddressChecksumLen) s)).
  { unfold checksum. fold s.
    pose proof (slice_take_drop s 0 (Z.to_nat AddressChecksumLen)) as Hs.
    cbn [Nat.add Z.of_nat drop] in Hs. rewrite Z2Nat.id in Hs by lia.
    apply Hs. subst s. rewrite Hsha. lia. }
  eexists _, _. split.
  { unfold GetAddress. fold h. rewrite Hcs, bind_Ok. reflexivity. }
  assert (Hlock := Lock_payload out Version h
            (take (Z.to_nat AddressChecksumLen) s)).
  cbn [app]. rewrite Hlock.
  - cbn. repeat split.
    + unfold IsLockedWithKey, bytes_Equal. cbn. by apply bool_decide_eq_true.
    + intros i Hi. unfold UsesKey, bytes_Equal. apply bool_decide_eq_true.
      by rewrite Hi.
  - rewrite length_take. subst s. rewrite Hsha. lia.
  - subst h. unfold HashPubKey. rewrite Hrip. lia.
Qed.

(** X7. [Lock] checks neither the version byte nor the checksum of the
    address it is given: whatever they are, the output is locked with the
    bytes between them. *)
Theorem Lock_ignores_version_and_checksum
    (out : TXOutput) (v v' : byte) (h c c' : bytes) :
  Z.of_nat (List.length c) = addressChecksumLen ->
  Z.of_nat (List.length c') = addressChecksumLen ->
  (Z.of_nat (List.length h) + addressChecksumLen < 2 ^ 62)%Z ->
  Lock base58_Decode addressChecksumLen out
    (list_byte_of_string (base58_Encode (v :: h ++ c)))
  = Ok {| Value := Value out; PubKeyHash := h |} /\
  Lock base58_Decode addressChecksumLen out
    (list_byte_of_string (base58_Encode (v' :: h ++ c')))
  = Ok {| Value := Value out; PubKeyHash := h |}.
Proof.
  intros Hc Hc' Hsmall. split; by apply Lock_payload.
Qed.

End WithLibraries.

Lemma fixed_hash_length (n : nat) (b : bytes) : List.length (fixed_hash n b) = n.
Proof.
  unfold fixed_hash. rewrite length_take, length_app, length_replicate. lia.
Qed.

Lemma lock_to_own_address_witness :
  (forall b, list_byte_of_string (string_of_list_byte b) = b) /\
  (forall b, List.length (fixed_hash 32 b) = 32) /\
  (forall b, List.length (fixed_hash 20 b) = 20) /\
  (4 = 4)%Z /\ (0 <= 4 <= 32)%Z /\
  exists address out',
    GetAddress (fixed_hash 32) (fixed_hash 20) string_of_list_byte "000"%byte 4
      unit example_wallet = Ok address /\
    Lock list_byte_of_string 4 {| Value := 10; PubKeyHash := [] |} address
    = Ok out' /\
    Value out' = Value {| Value := 10; PubKeyHash := [] |} /\
    PubKeyHash out'
    = HashPubKey (fixed_hash 32) (fixed_hash 20) (PublicKey unit example_wallet) /\
    IsLockedWithKey out'
      (HashPubKey (fixed_hash 32) (fixed_hash 20) (PublicKey unit example_wallet))
    = true /\
    forall i : TXInput,
      PubKey i = PublicKey unit example_wallet ->
      UsesKey (fixed_hash 32) (fixed_hash 20) i (PubKeyHash out') = true.
Proof.
  split; [exact list_byte_of_string_of_list_byte |].
  split; [exact (fixed_hash_length 32) |].
  split; [exact (fixed_hash_length 20) |].
  split; [reflexivity |]. split; [lia |].
  exact (lock_to_own_address (fixed_hash 32) (fixed_hash 20)
           string_of_list_byte list_byte_of_string "000"%byte 4 4 unit
           list_byte_of_string_of_list_byte example_wallet
           {| Value := 10; PubKeyHash := [] |}
           (fixed_hash_length 32) (fixed_hash_length 20) eq_refl
           ltac:(lia)).
Defined.

Lemma Lock_ignores_version_and_checksum_witness :
  (forall b, list_byte_of_string (string_of_list_byte b) = b) /\
  Z.of_nat (List.length ["a"%byte; "b"%byte]) = 2%Z /\
  Z.of_nat (List.length ["y"%byte; "z"%byte]) = 2%Z /\
  (Z.of_nat (List.length ["h"%byte]) + 2 < 2 ^ 62)%Z /\
  Lock list_byte_of_string 2 {| Value := 5; PubKeyHash := [] |}
    (list_byte_of_string
       (string_of_list_byte ("000"%byte :: ["h"%byte] ++ ["a"%byte; "b"%byte])))
  = Ok {| Value := 5; PubKeyHash := ["h"%byte] |} /\
  Lock list_byte_of_string 2 {| Value := 5; PubKeyHash := [] |}
    (list_byte_of_string
       (string_of_list_byte ("111"%byte :: ["h"%byte] ++ ["y"%byte; "z"%byte])))
  = Ok {| Value := 5; PubKeyHash := ["h"%byte] |}.
Proof.
  split; [exact list_byte_of_string_of_list_byte |].
  split; [reflexivity |]. split; [reflexivity |]. split; [cbn; lia |].
  exact (Lock_ignores_version_and_checksum string_of_list_byte
           list_byte_of_string 2 list_byte_of_string_of_list_byte
           {| Value := 5; PubKeyHash := [] |} "000"%byte "111"%byte
           ["h"%byte] ["a"%byte; "b"%byte] ["y"%byte; "z"%byte]
           eq_refl eq_refl ltac:(cbn; lia)).
Defined.

End WalletFacts.

Module TxFacts.

Import Go Tx GoFacts.

Lemma total_cons (out : TXOutput) (outs : list TXOutput) :
  total (out :: outs) = (Value out + total outs)%Z.
Proof. reflexivity. Qed.

Lemma total_nonneg (outs : list TXOutput) :
  Forall (fun out => (0 <= Value out)%Z) outs -> (0 <= total outs)%Z.
Proof.
  induction 1 as [| out outs Hout _ IH]; [done |]. rewrite total_cons. lia.
Qed.

Lemma total_app (a b : list TXOutput) : total (a ++ b) = (total a + total b)%Z.
Proof.
  induction a as [| out a IH]; [done |].
  cbn [app]. rewrite !total_cons, IH. lia.
Qed.

(** Adding up values without overflow. *)
Lemma balance_sum (outs : list TXOutput) : forall balance : Z,
  Forall (fun out => (0 <= Value out)%Z) outs ->
  (0 <= balance)%Z -> (balance + total outs < 2 ^ 63)%Z ->
  fold_left (fun balance out => int_add balance (Value out)) outs balance
  = (balance + total outs)%Z.
Proof.
  induction outs as [| out outs IH]; intros balance Hpos Hb Hsum.
  - cbn. lia.
  - inversion Hpos as [| ? ? Hout Hrest]; subst.
    pose proof (total_nonneg outs Hrest). rewrite total_cons in *.
    cbn [fold_left]. unfold int_add at 2.
    rewrite wrap_id by (unfold in_int; lia).
    rewrite IH by (done || lia). lia.
Qed.

Section Spending.

Variable address : string.
Variable amount : Z.

Local Abbreviation unlocks :=
  (fun out : TXOutput => CanBeUnlockedWith out address = true).

(** The inner loop: the total never goes down, never passes what the
    address unlocks, and stays short of [amount] only when every such
    output was taken and the loop ran to its end. *)
Lemma spend_outputs_post (txID : string) (outs : list TXOutput) :
  forall (outIdx acc : Z) (m : gmap string (list Z)),
  Forall (fun out => (0 <= Value out)%Z) (filter unlocks outs) ->
  (0 <= acc)%Z -> (acc + total (filter unlocks outs) < 2 ^ 63)%Z ->
  forall acc' m' broke,
  spend_outputs txID address amount outs outIdx (acc, m) = (acc', m', broke) ->
  (acc <= acc' <= acc + total (filter unlocks outs))%Z /\
  ((acc' < amount)%Z ->
   acc' = (acc + total (filter unlocks outs))%Z /\ broke = false).
Proof.
  induction outs as [| out outs IH]; intros outIdx acc m Hpos Hacc Hsum acc' m' broke.
  - cbn [spend_outputs]. intros [= <- <- <-]. rewrite filter_nil.
    change (total []) with 0%Z. split; [lia | intros _; split; [lia | done]].
  - cbn [spend_outputs]. rewrite filter_cons in Hpos, Hsum |- *.
    destruct (decide (CanBeUnlockedWith out address = true)) as [Hun | Hun].
    + rewrite Hun.
      inversion Hpos as [| ? ? Hout Hrest]; subst.
      pose proof (total_nonneg _ Hrest) as Hnn. rewrite total_cons in Hsum |- *.
      destruct (acc <? amount)%Z eqn:Hlt; cbn [andb].
      * unfold int_add. rewrite wrap_id by (unfold in_int; lia).
        destruct (acc + Value out >=? amount)%Z eqn:Hge.
        -- intros [= <- <- <-]. rewrite Z.geb_leb in Hge.
           apply Z.leb_le in Hge. split; [lia | intros ?; exfalso; lia].
        -- intros Hrec. apply IH in Hrec as [Hb Hs]; [| done | lia | lia].
           split; [lia |]. intros Hshort.
           destruct (Hs Hshort) as [Heq ->]. split; [lia | done].
      * intros Hrec. apply IH in Hrec as [Hb Hs]; [| done | lia | lia].
        apply Z.ltb_ge in Hlt. split; [lia | intros ?; exfalso; lia].
    + apply not_true_is_false in Hun. rewrite Hun.
      cbn [andb]. intros Hrec. by apply IH in Hrec.
Qed.

Lemma spend_txs_post (txs : list Transaction) :
  forall (acc : Z) (m : gmap string (list Z)),
  Forall (fun out => (0 <= Value out)%Z) (flat_map (unlockable address) txs) ->
  (0 <= acc)%Z -> (acc + total (flat_map (unlockable address) txs) < 2 ^ 63)%Z ->
  forall acc' m',
  spend_txs address amount txs (acc, m) = (acc', m') ->
  (acc <= acc' <= acc + total (flat_map (unlockable address) txs))%Z /\
  ((acc' < amount)%Z ->
   acc' = (acc + total (flat_map (unlockable address) txs))%Z).
Proof.
  induction txs as [| tx txs IH]; intros acc m Hpos Hacc Hsum acc' m'.
  - cbn [spend_txs flat_map]. intros [= <- <-]. change (total []) with 0%Z. lia.
  - cbn [spend_txs flat_map] in *. rewrite total_app in *.
    apply Forall_app in Hpos as [Hpos1 Hpos2].
    pose proof (total_nonneg _ Hpos1). pose proof (total_nonneg _ Hpos2).
    destruct (spend_outputs (EncodeToString (ID tx)) address amount
                (TxVout tx) 0 (acc, m)) as [[acc1 m1] broke] eqn:Hinner.
    apply spend_outputs_post in Hinner as [Hb1 Hshort1]; [| done | done | ].
    2: { unfold unlockable in *. lia. }
    fold (unlockable address tx) in Hb1, Hshort1.
    destruct broke.
    + intros [= <- <-]. split; [lia |]. intros Hlt.
      by destruct (Hshort1 Hlt).
    + intros Hrec. apply IH in Hrec as [Hb2 Hshort2]; [| done | lia | lia].
      split; [lia |]. intros Hlt. specialize (Hshort2 Hlt).
      destruct Hshort1 as [-> _]; lia.
Qed.

(** With the amount already reached nothing more is taken. *)
Lemma spend_outputs_idle (txID : string) (outs : list TXOutput) :
  forall (outIdx acc : Z) (m : gmap string (list Z)),
  (amount <= acc)%Z ->
  spend_outputs txID address amount outs outIdx (acc, m) = (acc, m, false).
Proof.
  induction outs as [| out outs IH]; intros outIdx acc m Hacc; [done |].
  cbn [spend_outputs]. replace (acc <? amount)%Z with false by (symmetry; apply Z.ltb_ge; lia).
  rewrite andb_false_r. by apply IH.
Qed.

Lemma spend_txs_idle (txs : list Transaction) :
  forall (acc : Z) (m : gmap string (list Z)),
  (amount <= acc)%Z -> spend_txs address amount txs (acc, m) = (acc, m).
Proof.
  induction txs as [| tx txs IH]; intros acc m Hacc; [done |].
  cbn [spend_txs]. rewrite spend_outputs_idle by done. by apply IH.
Qed.

End Spending.

(** Building the inputs can only fail at decoding a key. *)
Lemma build_inputs_panic (from : string) (entries : list (string * list Z)) :
  forall (inputs : list TXInput) (p : panic),
  build_inputs from entries inputs = Panic p -> p = CheckFailed.
Proof.
  induction entries as [| entry entries IH]; intros inputs p; cbn; [done |].
  unfold inputs_of. destruct (DecodeString entry.1); cbn.
  - apply IH.
  - by intros [= <-].
Qed.

Section WithMissing.

Variable IsCoinbase : Transaction -> bool.
Variable CanUnlockOutputWith : TXInput -> string -> bool.
Variable SetID : Transaction -> Transaction.
Variable visit : gmap string (list Z) -> list (string * list Z).

Lemma flat_map_replicate {A B : Type} (f : A -> list B) (n : nat) (x : A) :
  flat_map f (replicate n x) = List.concat (replicate n (f x)).
Proof.
  induction n as [| n IH]; [done |]. cbn. by rewrite IH.
Qed.

(** With nothing recorded as spent for a transaction, the [Outputs:] loop
    adds the transaction once for each output the address unlocks. *)
Lemma unspent_outputs_fresh (tx : Transaction) (txID address : string)
    (spentTXOs : gmap string (list Z)) (outs : list TXOutput) :
  spentTXOs !! txID = None ->
  forall (outIdx : Z) (unspentTXs : list Transaction),
  unspent_outputs tx txID address spentTXOs outs outIdx unspentTXs
  = unspentTXs
    ++ replicate
         (List.length (filter (fun out => CanBeUnlockedWith out address = true) outs))
         tx.
Proof.
  intros Hfresh. induction outs as [| out outs IH]; intros outIdx unspentTXs.
  - cbn. by rewrite app_nil_r.
  - cbn [unspent_outputs]. rewrite Hfresh, filter_cons.
    destruct (decide (CanBeUnlockedWith out address = true)) as [Hun | Hun].
    + rewrite Hun, IH. cbn [List.length replicate]. by rewrite <- app_assoc.
    + apply not_true_is_false in Hun. by rewrite Hun, IH.
Qed.

Lemma spend_inputs_none (address : string) (ins : list TXInput)
    (spentTXOs : gmap string (list Z)) :
  Forall (fun i => CanUnlockOutputWith i address = false) ins ->
  spend_inputs CanUnlockOutputWith address ins spentTXOs = spentTXOs.
Proof.
  induction 1 as [| i ins Hi _ IH]; cbn; [done |]. by rewrite Hi.
Qed.

Lemma visit_txs_untouched (address : string) (txs : list Transaction) :
  Forall (spends_nothing IsCoinbase CanUnlockOutputWith address) txs ->
  forall unspentTXs : list Transaction,
  fold_left (fun st tx => visit_tx IsCoinbase CanUnlockOutputWith address tx st)
    txs (unspentTXs, ∅)
  = (unspentTXs
       ++ flat_map (fun tx => replicate (List.length (unlockable address tx)) tx) txs,
     ∅).
Proof.
  induction 1 as [| tx txs Htx _ IH]; intros unspentTXs; cbn [fold_left flat_map].
  - by rewrite app_nil_r.
  - unfold visit_tx at 2. rewrite unspent_outputs_fresh by apply lookup_empty.
    assert (Hspent : (if negb (IsCoinbase tx)
                      then spend_inputs CanUnlockOutputWith address (Vin tx) ∅
                      else ∅) = (∅ : gmap string (list Z))).
    { destruct Htx as [-> | Hins]; [done |].
      rewrite spend_inputs_none by done. by destruct (negb (IsCoinbase tx)). }
    rewrite Hspent, IH. by rewrite <- app_assoc.
Qed.

Lemma visit_blocks_untouched (address : string) (bc : Blockchain) :
  forall (blocks : list Block) (unspentTXs : list Transaction),
  visited bc = Some blocks ->
  Forall (spends_nothing IsCoinbase CanUnlockOutputWith address)
    (flat_map Transactions blocks) ->
  visit_blocks IsCoinbase CanUnlockOutputWith address bc (unspentTXs, ∅)
  = Ok (unspentTXs
          ++ flat_map (fun tx => replicate (List.length (unlockable address tx)) tx)
               (flat_map Transactions blocks)).
Proof.
  induction bc as [| block bc IH]; intros blocks unspentTXs; cbn; [done |].
  destruct (List.length (PrevBlockHash block) =? 0)%nat.
  - intros [= <-]. cbn. rewrite app_nil_r. intros Hall.
    by rewrite visit_txs_untouched.
  - destruct (visited bc) as [rest |]; [| done]. intros [= <-]. cbn.
    intros [Hhere Hrest]%Forall_app.
    rewrite visit_txs_untouched by done. rewrite (IH rest) by done.
    by rewrite flat_map_app, <- app_assoc.
Qed.

(** X10. For an address that has spent nothing, [FindUnspentTransactions]
    returns each transaction once for every output it has for the address,
    so [FindUTXO] lists each such output that many times: a transaction
    that pays the address in two outputs is counted twice. *)
Theorem unspent_counted_per_output
    (bc : Blockchain) (address : string) (blocks : list Block) :
  visited bc = Some blocks ->
  Forall (spends_nothing IsCoinbase CanUnlockOutputWith address)
    (flat_map Transactions blocks) ->
  FindUnspentTransactions IsCoinbase CanUnlockOutputWith bc address
  = Ok (flat_map (fun tx => replicate (List.length (unlockable address tx)) tx)
          (flat_map Transactions blocks)) /\
  FindUTXO IsCoinbase CanUnlockOutputWith bc address
  = Ok (flat_map
          (fun tx => List.concat (replicate (List.length (unlockable address tx))
                               (unlockable address tx)))
          (flat_map Transactions blocks)).
Proof.
  intros Hvis Hall.
  assert (Hun : FindUnspentTransactions IsCoinbase CanUnlockOutputWith bc address
                = Ok (flat_map
                        (fun tx => replicate (List.length (unlockable address tx)) tx)
                        (flat_map Transactions blocks))).
  { unfold FindUnspentTransactions. by rewrite (visit_blocks_untouched _ _ blocks). }
  split; [exact Hun |].
  unfold FindUTXO. rewrite Hun, bind_Ok. f_equal. fold (unlockable address).
  clear. induction (flat_map Transactions blocks) as [| tx txs IH]; [done |].
  cbn [flat_map]. by rewrite flat_map_app, IH, flat_map_replicate.
Qed.

(** The running total is always an [int]. *)
Lemma spend_outputs_in_int (txID address : string) (amount : Z)
    (outs : list TXOutput) :
  forall (outIdx acc : Z) (m : gmap string (list Z)) acc' m' broke,
  in_int acc ->
  spend_outputs txID address amount outs outIdx (acc, m) = (acc', m', broke) ->
  in_int acc'.
Proof.
  induction outs as [| out outs IH]; intros outIdx acc m acc' m' broke Hacc;
    cbn [spend_outputs].
  - by intros [= <- <- <-].
  - destruct (CanBeUnlockedWith out address && (acc <? amount)%Z).
    + destruct (int_add acc (Value out) >=? amount)%Z.
      * intros [= <- <- <-]. apply wrap_in_int.
      * apply IH, wrap_in_int.
    + by apply IH.
Qed.

Lemma spend_txs_in_int (address : string) (amount : Z) (txs : list Transaction) :
  forall (acc : Z) (m : gmap string (list Z)) acc' m',
  in_int acc -> spend_txs address amount txs (acc, m) = (acc', m') -> in_int acc'.
Proof.
  induction txs as [| tx txs IH]; intros acc m acc' m' Hacc; cbn [spend_txs].
  - by intros [= <- <-].
  - destruct (spend_outputs (EncodeToString (ID tx)) address amount (TxVout tx) 0
                (acc, m)) as [[acc1 m1] broke] eqn:Hinner.
    apply spend_outputs_in_int in Hinner; [| done].
    destruct broke; [by intros [= <- <-] | by apply IH].
Qed.

Lemma push_selects (address : string) (txs : list Transaction)
    (m : gmap string (list Z)) (tx : Transaction) (idx : Z) (out : TXOutput) :
  selects address txs m -> tx ∈ txs ->
  index (TxVout tx) idx = Ok out -> CanBeUnlockedWith out address = true ->
  selects address txs (push m (EncodeToString (ID tx)) idx).
Proof.
  intros Hm Htx Hidx Hout k idxs i. unfold push.
  destruct (decide (k = EncodeToString (ID tx))) as [-> | Hne].
  - rewrite lookup_insert_eq. intros [= <-] [Hold | ->%list_elem_of_singleton]%elem_of_app.
    + destruct (m !! EncodeToString (ID tx)) as [old |] eqn:Hk; cbn in Hold.
      * by apply (Hm _ old).
      * by apply elem_of_nil in Hold.
    + by exists tx, out.
  - rewrite lookup_insert_ne by done. apply Hm.
Qed.

Lemma index_middle {A : Type} (pre : list A) (x : A) (post : list A) :
  index (pre ++ x :: post) (Z.of_nat (List.length pre)) = Ok x.
Proof.
  unfold index. destruct (Z.ltb_spec (Z.of_nat (List.length pre)) 0); [lia |].
  by rewrite Nat2Z.id, list_lookup_middle.
Qed.

Lemma spend_outputs_selects (address : string) (amount : Z)
    (txs : list Transaction) (tx : Transaction) (outs : list TXOutput) :
  forall (pre : list TXOutput) (acc : Z) (m : gmap string (list Z)) acc' m' broke,
  TxVout tx = pre ++ outs -> tx ∈ txs -> selects address txs m ->
  spend_outputs (EncodeToString (ID tx)) address amount outs
    (Z.of_nat (List.length pre)) (acc, m) = (acc', m', broke) ->
  selects address txs m'.
Proof.
  induction outs as [| out outs IH]; intros pre acc m acc' m' broke Hsplit Htx Hm;
    cbn [spend_outputs].
  - by intros [= <- <- <-].
  - assert (Hnext : (Z.of_nat (List.length pre) + 1)%Z
                    = Z.of_nat (List.length (pre ++ [out])))
      by (rewrite length_app; cbn; lia).
    assert (Hsplit' : TxVout tx = (pre ++ [out]) ++ outs)
      by (by rewrite <- app_assoc).
    rewrite Hnext.
    destruct (CanBeUnlockedWith out address) eqn:Hout; cbn [andb].
    + destruct (acc <? amount)%Z.
      * assert (Hm1 : selects address txs
                        (push m (EncodeToString (ID tx)) (Z.of_nat (List.length pre)))).
        { apply (push_selects _ _ _ _ _ out); [done | done | | done].
          rewrite Hsplit. apply index_middle. }
        destruct (int_add acc (Value out) >=? amount)%Z.
        -- by intros [= <- <- <-].
        -- by apply IH.
      * by apply IH.
    + by apply IH.
Qed.

Lemma spend_txs_selects (address : string) (amount : Z) (txs : list Transaction) :
  forall (rest : list Transaction) (acc : Z) (m : gmap string (list Z)) acc' m',
  rest ⊆ txs -> selects address txs m ->
  spend_txs address amount rest (acc, m) = (acc', m') ->
  selects address txs m'.
Proof.
  induction rest as [| tx rest IH]; intros acc m acc' m' Hsub Hm; cbn [spend_txs].
  - by intros [= <- <-].
  - destruct (spend_outputs (EncodeToString (ID tx)) address amount (TxVout tx) 0
                (acc, m)) as [[acc1 m1] broke] eqn:Hinner.
    apply (spend_outputs_selects address amount txs tx (TxVout tx) []) in Hinner;
      [| done | apply Hsub; left | done].
    destruct broke; [by intros [= <- <-] |].
    apply IH; [| done]. intros x Hx. apply Hsub. by right.
Qed.

Lemma build_inputs_spec (from : string) (entries : list (string * list Z)) :
  forall inputs res : list TXInput,
  build_inputs from entries inputs = Ok res ->
  Forall (fun entry => is_Some (DecodeString entry.1)) entries /\
  res = inputs ++
        flat_map (fun entry =>
                    map (fun out => {| Txid := default [] (DecodeString entry.1);
                                       Vout := out; ScriptSig := from |})
                      entry.2) entries.
Proof.
  induction entries as [| entry entries IH]; intros inputs res; cbn.
  - intros [= <-]. split; [constructor | by rewrite app_nil_r].
  - unfold inputs_of. destruct (DecodeString entry.1) as [txID |] eqn:Hdec; [| done].
    rewrite bind_Ok. intros [Hall ->]%IH. split; [by constructor |].
    by rewrite <- app_assoc.
Qed.

Lemma selected_inputs_spend (from : string) (txs : list Transaction)
    (m : gmap string (list Z)) (entries : list (string * list Z)) :
  selects from txs m ->
  Forall (fun entry => m !! entry.1 = Some entry.2) entries ->
  Forall (spends_from from txs)
    (flat_map (fun entry =>
                 map (fun out => {| Txid := default [] (DecodeString entry.1);
                                    Vout := out; ScriptSig := from |})
                   entry.2) entries).
Proof.
  intros Hm. induction 1 as [| [k idxs] entries Hk _ IH]; cbn [flat_map].
  - constructor.
  - apply Forall_app. split; [| done].
    apply Forall_fmap, Forall_forall. intros idx Hidx.
    destruct (Hm k idxs idx Hk Hidx) as (tx & out & Htx & -> & Hout & Hun).
    exists tx, out. split; [done |]. split; [| done].
    cbn [Txid fst]. by rewrite DecodeString_EncodeToString.
Qed.

(** X20. What [NewUTXOTransaction] returns when the amount is not
    negative.  The transaction has two outputs at most: the amount to the
    receiver and, only when more was collected than the amount, the rest to
    the sender; so its outputs add up to exactly the total that
    [FindSpendableOutputs] collected.  Its inputs are the outputs that
    [FindSpendableOutputs] selected, one input for each selected index and
    no other, in the order the map is visited, and each of them refers to
    an output that the sender unlocks, in a transaction that
    [FindUnspentTransactions] lists.  An output can be selected more than
    once. *)
Theorem NewUTXOTransaction_pays_out_what_it_collects
    (bc : Blockchain) (from to : string) (amount : Z) (tx : Transaction) :
  (forall m k idxs, (k, idxs) ∈ visit m -> m !! k = Some idxs) ->
  (0 <= amount)%Z ->
  NewUTXOTransaction IsCoinbase CanUnlockOutputWith SetID visit from to amount bc
  = Ok tx ->
  exists unspentTXs acc validOutputs inputs outputs,
    FindUnspentTransactions IsCoinbase CanUnlockOutputWith bc from
    = Ok unspentTXs /\
    FindSpendableOutputs IsCoinbase CanUnlockOutputWith bc from amount
    = Ok (acc, validOutputs) /\
    (amount <= acc < 2 ^ 63)%Z /\
    Forall (fun entry => is_Some (DecodeString entry.1)) (visit validOutputs) /\
    inputs = flat_map (fun entry =>
                         map (fun out =>
                                {| Txid := default [] (DecodeString entry.1);
                                   Vout := out; ScriptSig := from |})
                           entry.2)
               (visit validOutputs) /\
    outputs = {| Value := amount; ScriptPubKey := to |} ::
              (if (amount <? acc)%Z
               then [ {| Value := acc - amount; ScriptPubKey := from |} ]
               else []) /\
    tx = SetID {| ID := []; Vin := inputs; TxVout := outputs |} /\
    total outputs = acc /\
    Forall (spends_from from unspentTXs) inputs.
Proof.
  intros Hvisit Hamount. unfold NewUTXOTransaction, FindSpendableOutputs.
  destruct (FindUnspentTransactions IsCoinbase CanUnlockOutputWith bc from)
    as [unspentTXs | p]; [| done].
  rewrite !bind_Ok.
  destruct (spend_txs from amount unspentTXs (0%Z, ∅)) as [acc m] eqn:Hspend.
  assert (Hacc : in_int acc).
  { apply (spend_txs_in_int from amount unspentTXs 0 ∅ acc m); [| done].
    unfold in_int. lia. }
  apply (spend_txs_selects from amount unspentTXs) in Hspend;
    [| done | by intros k idxs idx ?].
  destruct (acc <? amount)%Z eqn:Hlt; [done |]. apply Z.ltb_ge in Hlt.
  destruct (build_inputs from (visit m) []) as [inputs | p] eqn:Hins; [| done].
  rewrite bind_Ok. intros [= <-].
  assert (Hout : (if (acc >? amount)%Z
                  then [ {| Value := amount; ScriptPubKey := to |} ] ++
                       [ {| Value := int_sub acc amount; ScriptPubKey := from |} ]
                  else [ {| Value := amount; ScriptPubKey := to |} ])
                 = {| Value := amount; ScriptPubKey := to |} ::
                   (if (amount <? acc)%Z
                    then [ {| Value := acc - amount; ScriptPubKey := from |} ]
                    else [])).
  { rewrite Z.gtb_ltb. destruct (amount <? acc)%Z; [| done].
    unfold int_sub. rewrite wrap_id by (unfold in_int in *; lia). done. }
  cbn [app] in Hout. rewrite Hout. clear Hout.
  apply build_inputs_spec in Hins as [Hdec ->]. cbn [app].
  eexists unspentTXs, acc, m, _, _.
  split; [reflexivity |]. split; [reflexivity |].
  split; [unfold in_int in Hacc; lia |]. split; [done |].
  split; [reflexivity |]. split; [reflexivity |].
  split; [reflexivity |]. split.
  - destruct (Z.ltb_spec amount acc).
    + rewrite !total_cons. change (total []) with 0%Z. cbn. lia.
    + rewrite total_cons. change (total []) with 0%Z. cbn. lia.
  - apply (selected_inputs_spend from unspentTXs m); [done |].
    apply Forall_forall. intros [k idxs] Hin. by apply Hvisit.
Qed.

(** X8. Sending and the balance agree on what an address has.  When no
    output value is negative and their sum fits an [int], [getBalance]
    prints the sum of the outputs that [FindUTXO] lists for the sender, and
    [NewUTXOTransaction] stops with "ERROR: Not enough funds" exactly when
    that balance is below the amount. *)
Theorem send_fails_iff_balance_short
    (bc : Blockchain) (from to : string) (amount : Z)
    (unspentTXs : list Transaction) :
  FindUnspentTransactions IsCoinbase CanUnlockOutputWith bc from = Ok unspentTXs ->
  Forall (fun out => (0 <= Value out)%Z) (flat_map (unlockable from) unspentTXs) ->
  (total (flat_map (unlockable from) unspentTXs) < 2 ^ 63)%Z ->
  getBalance IsCoinbase CanUnlockOutputWith bc from
  = Ok (total (flat_map (unlockable from) unspentTXs)) /\
  (NewUTXOTransaction IsCoinbase CanUnlockOutputWith SetID visit from to amount bc
   = Panic (LogPanic "ERROR: Not enough funds")
   <-> (total (flat_map (unlockable from) unspentTXs) < amount)%Z).
Proof.
  intros Hun Hpos Hsum. split.
  - unfold getBalance, FindUTXO. rewrite Hun, !bind_Ok.
    fold (unlockable from). by rewrite balance_sum by (done || lia).
  - unfold NewUTXOTransaction, FindSpendableOutputs. rewrite Hun, !bind_Ok.
    destruct (spend_txs from amount unspentTXs (0%Z, ∅)) as [acc m] eqn:Hspend.
    apply spend_txs_post in Hspend as [Hb Hshort]; [| done | lia | lia].
    destruct (acc <? amount)%Z eqn:Hlt.
    + apply Z.ltb_lt in Hlt. split; [intros _ | done].
      rewrite <- (Hshort Hlt) in *. lia.
    + apply Z.ltb_ge in Hlt. split.
      * destruct (build_inputs from (visit m) []) as [ins | p] eqn:Hins; cbn.
        -- discriminate.
        -- intros [= ->]. by apply build_inputs_panic in Hins.
      * lia.
Qed.

(** X9. A negative amount makes money: whatever the sender has,
    [NewUTXOTransaction] spends nothing and still pays the amount to the
    receiver and its opposite, a positive sum, to the sender. *)
Theorem negative_amount_pays_sender
    (bc : Blockchain) (from to : string) (amount : Z)
    (unspentTXs : list Transaction) :
  FindUnspentTransactions IsCoinbase CanUnlockOutputWith bc from = Ok unspentTXs ->
  visit ∅ = [] ->
  (- 2 ^ 63 < amount < 0)%Z ->
  NewUTXOTransaction IsCoinbase CanUnlockOutputWith SetID visit from to amount bc
  = Ok (SetID {| ID := []; Vin := [];
                 TxVout := [ {| Value := amount; ScriptPubKey := to |};
                             {| Value := - amount; ScriptPubKey := from |} ] |}).
Proof.
  intros Hun Hvisit Hneg.
  unfold NewUTXOTransaction, FindSpendableOutputs. rewrite Hun, !bind_Ok.
  rewrite spend_txs_idle by lia.
  replace (0 <? amount)%Z with false by (symmetry; apply Z.ltb_ge; lia).
  rewrite Hvisit. cbn [build_inputs]. rewrite bind_Ok.
  replace (0 >? amount)%Z with true by (symmetry; apply Z.gtb_lt; lia).
  unfold int_sub. rewrite wrap_id by (unfold in_int; lia).
  reflexivity.
Qed.

End WithMissing.

Lemma send_fails_iff_balance_short_witness :
  FindUnspentTransactions no_inputs signed_by eddie_chain "Eddie"
  = Ok (flat_map Transactions eddie_chain) /\
  Forall (fun out => (0 <= Value out)%Z)
    (flat_map (unlockable "Eddie") (flat_map Transactions eddie_chain)) /\
  (total (flat_map (unlockable "Eddie") (flat_map Transactions eddie_chain))
   < 2 ^ 63)%Z /\
  getBalance no_inputs signed_by eddie_chain "Eddie"
  = Ok (total (flat_map (unlockable "Eddie") (flat_map Transactions eddie_chain))) /\
  (NewUTXOTransaction no_inputs signed_by keep_id in_key_order
     "Eddie" "Ivan" 11 eddie_chain
   = Panic (LogPanic "ERROR: Not enough funds")
   <-> (total (flat_map (unlockable "Eddie") (flat_map Transactions eddie_chain))
        < 11)%Z).
Proof.
  assert (H1 : FindUnspentTransactions no_inputs signed_by eddie_chain "Eddie"
               = Ok (flat_map Transactions eddie_chain)) by reflexivity.
  assert (H2 : Forall (fun out => (0 <= Value out)%Z)
                 (flat_map (unlockable "Eddie") (flat_map Transactions eddie_chain))).
  { repeat constructor. cbn. lia. }
  assert (H3 : (total (flat_map (unlockable "Eddie")
                         (flat_map Transactions eddie_chain)) < 2 ^ 63)%Z)
    by (vm_compute; reflexivity).
  split; [exact H1 |]. split; [exact H2 |]. split; [exact H3 |].
  exact (send_fails_iff_balance_short no_inputs signed_by keep_id in_key_order
           eddie_chain "Eddie" "Ivan" 11 _ H1 H2 H3).
Defined.

Lemma NewUTXOTransaction_pays_out_what_it_collects_witness :
  (forall m k idxs, (k, idxs) ∈ in_key_order m -> m !! k = Some idxs) /\
  (0 <= 6)%Z /\
  exists tx,
    NewUTXOTransaction no_inputs signed_by keep_id in_key_order
      "Eddie" "Ivan" 6 eddie_chain = Ok tx /\
    exists unspentTXs acc validOutputs inputs outputs,
      FindUnspentTransactions no_inputs signed_by eddie_chain "Eddie"
      = Ok unspentTXs /\
      FindSpendableOutputs no_inputs signed_by eddie_chain "Eddie" 6
      = Ok (acc, validOutputs) /\
      (6 <= acc < 2 ^ 63)%Z /\
      Forall (fun entry => is_Some (DecodeString entry.1))
        (in_key_order validOutputs) /\
      inputs = flat_map (fun entry =>
                           map (fun out =>
                                  {| Txid := default [] (DecodeString entry.1);
                                     Vout := out; ScriptSig := "Eddie" |})
                             entry.2)
                 (in_key_order validOutputs) /\
      outputs = {| Value := 6; ScriptPubKey := "Ivan" |} ::
                (if (6 <? acc)%Z
                 then [ {| Value := acc - 6; ScriptPubKey := "Eddie" |} ]
                 else []) /\
      tx = keep_id {| ID := []; Vin := inputs; TxVout := outputs |} /\
      total outputs = acc /\
      Forall (spends_from "Eddie" unspentTXs) inputs.
Proof.
  assert (Hvisit : forall m k idxs,
             (k, idxs) ∈ in_key_order m -> m !! k = Some idxs).
  { intros m k idxs. apply elem_of_map_to_list. }
  split; [exact Hvisit |]. split; [lia |]. eexists. split; [reflexivity |].
  apply (NewUTXOTransaction_pays_out_what_it_collects no_inputs signed_by keep_id
           in_key_order eddie_chain "Eddie" "Ivan" 6);
    [exact Hvisit | lia | reflexivity].
Defined.

(** The transaction of the listing: Eddie, who has 10, sends 6 to Ivan and
    gets 4 back. *)
Example eddie_sends_six :
  NewUTXOTransaction no_inputs signed_by keep_id in_key_order
    "Eddie" "Ivan" 6 eddie_chain
  = Ok {| ID := [];
          Vin := [ {| Txid := ["c"%byte]; Vout := 0; ScriptSig := "Eddie" |} ];
          TxVout := [ {| Value := 6; ScriptPubKey := "Ivan" |};
                      {| Value := 4; ScriptPubKey := "Eddie" |} ] |}.
Proof. reflexivity. Qed.

(** A transaction listed twice is collected from twice: Eddie, who was paid
    6 and 4, sends 15, and the output of 6 is spent two times. *)
Example twice_chain_sends_fifteen :
  NewUTXOTransaction no_inputs signed_by keep_id in_key_order
    "Eddie" "Ivan" 15 twice_chain
  = Ok {| ID := [];
          Vin := [ {| Txid := ["c"%byte]; Vout := 0; ScriptSig := "Eddie" |};
                   {| Txid := ["c"%byte]; Vout := 1; ScriptSig := "Eddie" |};
                   {| Txid := ["c"%byte]; Vout := 0; ScriptSig := "Eddie" |} ];
          TxVout := [ {| Value := 15; ScriptPubKey := "Ivan" |};
                      {| Value := 1; ScriptPubKey := "Eddie" |} ] |}.
Proof. reflexivity. Qed.

Lemma negative_amount_pays_sender_witness :
  FindUnspentTransactions no_inputs signed_by eddie_chain "Ivan" = Ok [] /\
  in_key_order ∅ = [] /\
  (- 2 ^ 63 < -5 < 0)%Z /\
  NewUTXOTransaction no_inputs signed_by keep_id in_key_order
    "Ivan" "Eddie" (-5) eddie_chain
  = Ok (keep_id {| ID := []; Vin := [];
                   TxVout := [ {| Value := -5; ScriptPubKey := "Eddie" |};
                               {| Value := - -5; ScriptPubKey := "Ivan" |} ] |}).
Proof.
  assert (H1 : FindUnspentTransactions no_inputs signed_by eddie_chain "Ivan"
               = Ok []) by reflexivity.
  assert (H2 : in_key_order ∅ = []) by reflexivity.
  assert (H3 : (- 2 ^ 63 < -5 < 0)%Z) by lia.
  split; [exact H1 |]. split; [exact H2 |]. split; [exact H3 |].
  exact (negative_amount_pays_sender no_inputs signed_by keep_id in_key_order
           eddie_chain "Ivan" "Eddie" (-5) [] H1 H2 H3).
Defined.

Lemma unspent_counted_per_output_witness :
  visited twice_chain = Some twice_chain /\
  Forall (spends_nothing no_inputs signed_by "Eddie")
    (flat_map Transactions twice_chain) /\
  FindUnspentTransactions no_inputs signed_by twice_chain "Eddie"
  = Ok (flat_map (fun tx => replicate (List.length (unlockable "Eddie" tx)) tx)
          (flat_map Transactions twice_chain)) /\
  FindUTXO no_inputs signed_by twice_chain "Eddie"
  = Ok (flat_map
          (fun tx => List.concat (replicate (List.length (unlockable "Eddie" tx))
                               (unlockable "Eddie" tx)))
          (flat_map Transactions twice_chain)).
Proof.
  assert (H1 : visited twice_chain = Some twice_chain) by reflexivity.
  assert (H2 : Forall (spends_nothing no_inputs signed_by "Eddie")
                 (flat_map Transactions twice_chain)).
  { repeat constructor. }
  split; [exact H1 |]. split; [exact H2 |].
  exact (unspent_counted_per_output no_inputs signed_by twice_chain "Eddie"
           twice_chain H1 H2).
Defined.

(** The balance of the address in [twice_chain]: 10 was paid, 20 is counted. *)
Example twice_chain_balance :
  getBalance no_inputs signed_by twice_chain "Eddie" = Ok 20%Z.
Proof. reflexivity. Qed.

End TxFacts.

Module BoltFacts.

Import Go Bolt.

Lemma checked_Put_valid (b : Bucket) (key value : bytes) :
  valid_key key -> valid_value value ->
  checked_Put b key value = Ok (<[key := value]> b).
Proof.
  unfold valid_key, valid_value, checked_Put, Put. intros Hk Hv.
  replace (List.length key =? 0)%nat with false
    by (symmetry; apply Nat.eqb_neq; lia).
  replace (MaxKeySize <? Z.of_nat (List.length key))%Z with false
    by (symmetry; apply Z.ltb_ge; lia).
  replace (MaxValueSize <? Z.of_nat (List.length value))%Z with false
    by (symmetry; apply Z.ltb_ge; lia).
  done.
Qed.

Lemma checked_Put_Ok (b b' : Bucket) (key value : bytes) :
  checked_Put b key value = Ok b' -> b' = <[key := value]> b.
Proof.
  unfold checked_Put, Put.
  repeat match goal with |- context [if ?c then _ else _] => destruct c end;
    congruence.
Qed.

End BoltFacts.

Module UtxoFacts.

Import Go Bolt Utxo GoFacts BoltFacts.

Lemma utxo_total_cons (out : TXOutput) (outs : list TXOutput) :
  total (out :: outs) = (Wallet.Value out + total outs)%Z.
Proof. reflexivity. Qed.

Lemma utxo_total_nonneg (outs : list TXOutput) :
  Forall (fun out => (0 <= Wallet.Value out)%Z) outs -> (0 <= total outs)%Z.
Proof.
  induction 1 as [| out outs Hout _ IH]; [done |]. rewrite utxo_total_cons. lia.
Qed.

Lemma utxo_total_app (a b : list TXOutput) : total (a ++ b) = (total a + total b)%Z.
Proof.
  induction a as [| out a IH]; [done |].
  cbn [app]. rewrite !utxo_total_cons, IH. lia.
Qed.




Section WithMissing.

Variable Serialize : TXOutputs -> bytes.
Variable DeserializeOutputs : bytes -> result TXOutputs.
Variable IsCoinbase : Transaction -> bool.

(** [FindUTXO] only ever adds to its list. *)
Lemma utxo_entries_extends (pubKeyHash : bytes) (entries : list (bytes * bytes)) :
  forall UTXOs res : list TXOutput,
  utxo_entries DeserializeOutputs pubKeyHash entries UTXOs = Ok res ->
  exists found, res = UTXOs ++ found.
Proof.
  induction entries as [| [k v] entries IH]; intros UTXOs res; cbn.
  - intros [= <-]. exists []. by rewrite app_nil_r.
  - destruct (DeserializeOutputs v) as [outs | p]; [| done]. rewrite bind_Ok.
    intros (found & ->)%IH. eexists. by rewrite <- app_assoc.
Qed.

Local Abbreviation locked_with pubKeyHash :=
  (fun out : TXOutput => Wallet.IsLockedWithKey out pubKeyHash = true).

(** The inner loop of [FindSpendableOutputs]: the total never goes down,
    never passes what the key unlocks, and stays short of the amount only
    when every such output was taken. *)
Lemma utxo_spend_outputs_post (txID : string) (pubKeyHash : bytes) (amount : Z)
    (outs : list TXOutput) :
  forall (outIdx acc : Z) (m : gmap string (list Z)),
  Forall (fun out => (0 <= Wallet.Value out)%Z) (filter (locked_with pubKeyHash) outs) ->
  (0 <= acc)%Z ->
  (acc + total (filter (locked_with pubKeyHash) outs) < 2 ^ 63)%Z ->
  forall acc' m',
  spend_outputs txID pubKeyHash amount outs outIdx (acc, m) = (acc', m') ->
  (acc <= acc' <= acc + total (filter (locked_with pubKeyHash) outs))%Z /\
  ((acc' < amount)%Z ->
   acc' = (acc + total (filter (locked_with pubKeyHash) outs))%Z).
Proof.
  induction outs as [| out outs IH]; intros outIdx acc m Hpos Hacc Hsum acc' m'.
  - cbn [spend_outputs]. intros [= <- <-]. rewrite filter_nil.
    change (total []) with 0%Z. lia.
  - cbn [spend_outputs]. rewrite filter_cons in Hpos, Hsum |- *.
    destruct (decide (Wallet.IsLockedWithKey out pubKeyHash = true)) as [Hun | Hun].
    + rewrite Hun. inversion Hpos as [| ? ? Hout Hrest]; subst.
      pose proof (utxo_total_nonneg _ Hrest) as Hnn. rewrite utxo_total_cons in Hsum |- *.
      destruct (acc <? amount)%Z eqn:Hlt; cbn [andb].
      * unfold int_add. rewrite wrap_id by (unfold in_int; lia).
        intros Hrec. apply IH in Hrec as [Hb Hs]; [| done | lia | lia]. lia.
      * intros Hrec. apply IH in Hrec as [Hb Hs]; [| done | lia | lia].
        apply Z.ltb_ge in Hlt. lia.
    + apply not_true_is_false in Hun. rewrite Hun. cbn [andb].
      intros Hrec. by apply IH in Hrec.
Qed.

(** The two cursor loops side by side. *)
Lemma spend_entries_post (pubKeyHash : bytes) (amount : Z)
    (entries : list (bytes * bytes)) :
  forall (UTXOs found : list TXOutput) (acc : Z) (m : gmap string (list Z)),
  utxo_entries DeserializeOutputs pubKeyHash entries UTXOs = Ok (UTXOs ++ found) ->
  Forall (fun out => (0 <= Wallet.Value out)%Z) found ->
  (0 <= acc)%Z -> (acc + total found < 2 ^ 63)%Z ->
  exists acc' m',
    spend_entries DeserializeOutputs pubKeyHash amount entries (acc, m)
    = Ok (acc', m') /\
    (acc <= acc' <= acc + total found)%Z /\
    ((acc' < amount)%Z -> acc' = (acc + total found)%Z).
Proof.
  induction entries as [| [k v] entries IH]; intros UTXOs found acc m Hutxo Hpos Hacc Hsum.
  - cbn in Hutxo. injection Hutxo as Hutxo.
    assert (found = []) as -> by (by apply (app_inv_head UTXOs); rewrite app_nil_r).
    exists acc, m. cbn [spend_entries]. change (total []) with 0%Z.
    split; [done | lia].
  - cbn [utxo_entries spend_entries] in *.
    destruct (DeserializeOutputs v) as [outs | p]; [| done].
    rewrite bind_Ok in *.
    set (here := filter (locked_with pubKeyHash) (Outputs outs)) in *.
    destruct (utxo_entries_extends pubKeyHash entries (UTXOs ++ here) _ Hutxo)
      as (later & Hlater).
    rewrite <- app_assoc in Hlater. apply app_inv_head in Hlater as ->.
    rewrite app_assoc in Hutxo.
    apply Forall_app in Hpos as [Hpos1 Hpos2]. rewrite utxo_total_app in *.
    pose proof (utxo_total_nonneg _ Hpos1). pose proof (utxo_total_nonneg _ Hpos2).
    destruct (spend_outputs (EncodeToString k) pubKeyHash amount (Outputs outs) 0
                (acc, m)) as [acc1 m1] eqn:Hinner.
    apply utxo_spend_outputs_post in Hinner as [Hb1 Hs1]; [| done | done | ].
    2: { fold here. lia. }
    fold here in Hb1, Hs1.
    destruct (IH _ later acc1 m1 Hutxo Hpos2) as (acc' & m' & Hrun & Hb2 & Hs2);
      [lia | lia |].
    exists acc', m'. split; [done |]. split; [lia |].
    intros Hlt. specialize (Hs2 Hlt). lia.
Qed.


(** [FindUTXO] in one formula: it succeeds when every entry decodes, and
    then lists, entry by entry, the outputs the key unlocks. *)
Lemma utxo_entries_spec (pubKeyHash : bytes) (entries : list (bytes * bytes)) :
  forall UTXOs : list TXOutput,
  Forall (decodes DeserializeOutputs) entries ->
  utxo_entries DeserializeOutputs pubKeyHash entries UTXOs
  = Ok (UTXOs ++ flat_map (locked_in DeserializeOutputs pubKeyHash) entries).
Proof.
  induction entries as [| [k v] entries IH]; intros UTXOs Hall; cbn [utxo_entries flat_map].
  - by rewrite app_nil_r.
  - inversion Hall as [| ? ? [outs Hd] Hrest]; subst. cbn in Hd.
    unfold locked_in at 1. cbn [snd]. rewrite Hd, bind_Ok, IH by done.
    by rewrite <- app_assoc.
Qed.

Lemma utxo_entries_decodes (pubKeyHash : bytes) (entries : list (bytes * bytes)) :
  forall UTXOs res : list TXOutput,
  utxo_entries DeserializeOutputs pubKeyHash entries UTXOs = Ok res ->
  Forall (decodes DeserializeOutputs) entries.
Proof.
  induction entries as [| [k v] entries IH]; intros UTXOs res; cbn [utxo_entries];
    [constructor |].
  destruct (DeserializeOutputs v) as [outs | p] eqn:Hd; [| done].
  rewrite bind_Ok. intros Hrest%IH. constructor; [by exists outs | done].
Qed.

Lemma flat_map_Permutation {A B : Type} (f : A -> list B) (l l' : list A) :
  l ≡ₚ l' -> flat_map f l ≡ₚ flat_map f l'.
Proof.
  induction 1 as [| x l l' _ IH | x y l | l l' l'' _ IH1 _ IH2]; cbn.
  - done.
  - by rewrite IH.
  - rewrite !app_assoc. f_equiv. apply Permutation_app_comm.
  - by etrans.
Qed.

(** X13. A mined reward shows up.  After [Update] with a block holding one
    coinbase transaction whose ID is new to the set, [FindUTXO] lists what
    it listed before together with the outputs of that transaction that the
    key unlocks. *)
Theorem Update_adds_coinbase_outputs
    (b : Bucket) (block : Block) (tx : Transaction) (pubKeyHash : bytes)
    (UTXOs : list TXOutput) :
  Transactions block = [tx] ->
  IsCoinbase tx = true ->
  b !! ID tx = None ->
  valid_key (ID tx) ->
  valid_value (Serialize {| Outputs := Vout tx |}) ->
  DeserializeOutputs (Serialize {| Outputs := Vout tx |})
  = Ok {| Outputs := Vout tx |} ->
  FindUTXO DeserializeOutputs (Some b) pubKeyHash = Ok UTXOs ->
  exists b' UTXOs',
    Update Serialize DeserializeOutputs IsCoinbase (Some b) block = Ok (Some b') /\
    FindUTXO DeserializeOutputs (Some b') pubKeyHash = Ok UTXOs' /\
    UTXOs' ≡ₚ
      UTXOs ++ filter (fun out => Wallet.IsLockedWithKey out pubKeyHash = true)
                 (Vout tx).
Proof.
  intros Htxs Hcb Hnew Hkey Hval Hround Hold.
  set (v := Serialize {| Outputs := Vout tx |}) in *.
  exists (<[ID tx := v]> b). eexists. split; [| split].
  - unfold Update. rewrite Htxs. cbn [update_txs]. unfold update_tx.
    rewrite Hcb. cbn [negb app]. rewrite bind_Ok.
    fold v. by rewrite checked_Put_valid.
  - cbn [FindUTXO] in *. apply utxo_entries_spec.
    apply utxo_entries_decodes in Hold.
    assert (Hperm : cursor (<[ID tx := v]> b) ≡ₚ (ID tx, v) :: cursor b).
    { unfold cursor. rewrite !merge_sort_Permutation.
      by apply map_to_list_insert. }
    rewrite Hperm. constructor; [by eexists | done].
  - cbn [FindUTXO] in Hold. pose proof (utxo_entries_decodes _ _ _ _ Hold) as Hdec.
    rewrite utxo_entries_spec in Hold by done. injection Hold as <-.
    cbn [app].
    assert (Hperm : cursor (<[ID tx := v]> b) ≡ₚ (ID tx, v) :: cursor b).
    { unfold cursor. rewrite !merge_sort_Permutation.
      by apply map_to_list_insert. }
    rewrite (flat_map_Permutation _ _ _ Hperm). cbn [flat_map].
    unfold locked_in at 1. cbn [snd]. rewrite Hround. cbn [Outputs].
    apply Permutation_app_comm.
Qed.

(** X12. [FindSpendableOutputs] and [FindUTXO] agree on what a key has.
    When [FindUTXO] lists outputs of no negative value whose sum fits an
    [int], [FindSpendableOutputs] returns a total between nothing and that
    sum, and the total is short of the amount exactly when the sum is. *)
Theorem funds_reached_iff_balance
    (u : UTXOSet) (pubKeyHash : bytes) (amount : Z) (UTXOs : list TXOutput) :
  FindUTXO DeserializeOutputs u pubKeyHash = Ok UTXOs ->
  Forall (fun out => (0 <= Wallet.Value out)%Z) UTXOs ->
  (total UTXOs < 2 ^ 63)%Z ->
  exists acc m,
    FindSpendableOutputs DeserializeOutputs u pubKeyHash amount = Ok (acc, m) /\
    (0 <= acc <= total UTXOs)%Z /\
    ((acc < amount)%Z <-> (total UTXOs < amount)%Z).
Proof.
  intros Hutxo Hpos Hsum. destruct u as [b |]; [| done].
  cbn [FindUTXO FindSpendableOutputs] in *.
  destruct (spend_entries_post pubKeyHash amount (cursor b) [] UTXOs 0 ∅)
    as (acc & m & Hrun & Hb & Hs); [done | done | lia | lia |].
  exists acc, m. split; [done |]. split; [lia |]. split.
  - intros Hlt. specialize (Hs Hlt). lia.
  - lia.
Qed.


End WithMissing.

Section WithHash.

Variable sha256 : bytes -> bytes.
Variable SerializeTx : Transaction -> bytes.

Lemma HashTransactions_outcome (b : Block) :
  Merkle.outcome (HashTransactions sha256 SerializeTx b)
  = Merkle.outcome (Merkle.NewMerkleTree sha256 (map SerializeTx (Transactions b))).
Proof.
  unfold HashTransactions.
  by destruct (Merkle.NewMerkleTree sha256 (map SerializeTx (Transactions b))).
Qed.

(** X18. [HashTransactions] gives a hash for a block of one to four
    transactions and for no other: a block with none, or with five or
    more, stops it with an index out of range.  A block with an odd number
    of transactions gets the hash of the block with its last transaction
    repeated. *)
Theorem HashTransactions_one_to_four (b : Block) :
  Merkle.outcome (HashTransactions sha256 SerializeTx b)
  = (if bool_decide (1 <= List.length (Transactions b) <= 4) then None
     else Some IndexOutOfRange) /\
  forall (txs : list Transaction) (tx : Transaction) (b' : Block),
    Nat.even (List.length txs) = true ->
    Transactions b = txs ++ [tx] -> Transactions b' = txs ++ [tx; tx] ->
    HashTransactions sha256 SerializeTx b = HashTransactions sha256 SerializeTx b'.
Proof.
  split.
  - rewrite HashTransactions_outcome.
    destruct (Transactions b) as [| t1 [| t2 [| t3 [| t4 [| t5 rest]]]]];
      try reflexivity.
    rewrite MerkleFacts.NewMerkleTree_long by (cbn; lia).
    rewrite bool_decide_eq_false_2; [done | cbn; lia].
  - intros txs tx b' Heven Hb Hb'. unfold HashTransactions.
    rewrite Hb, Hb', !map_app. cbn [map].
    rewrite (MerkleFacts.repeats_last_padded sha256); [done |].
    by rewrite length_map.
Qed.

End WithHash.

(** [FindTransaction] returns the first transaction with the ID in the
    blocks it goes through. *)
Lemma find_in_Some (txs : list Transaction) (ID' : bytes) (tx : Transaction) :
  find_in txs ID' = Some tx -> ID tx = ID' /\ tx ∈ txs.
Proof.
  induction txs as [| t txs IH]; cbn; [done |].
  unfold bytes_Equal. case_bool_decide as Heq.
  - intros [= <-]. split; [done | left].
  - intros [Hid Hin]%IH. split; [done | by right].
Qed.

Lemma find_in_None (txs : list Transaction) (ID' : bytes) :
  find_in txs ID' = None -> Forall (fun tx => ID tx <> ID') txs.
Proof.
  induction txs as [| t txs IH]; cbn; [constructor |].
  unfold bytes_Equal. case_bool_decide as Heq; [done |].
  intros Hrest%IH. by constructor.
Qed.

(** X19. [FindTransaction] looks the ID up in the blocks from the newest
    to the first: what it returns has the ID asked for and is in one of
    those blocks, and it reports "transaction not found" only when no
    transaction in them has the ID. *)
Theorem FindTransaction_finds (bc : Blockchain) (ID' : bytes) (blocks : list Block) :
  visited bc = Some blocks ->
  (exists tx, FindTransaction bc ID' = Ok (Some tx) /\ ID tx = ID' /\
              tx ∈ flat_map Transactions blocks) \/
  (FindTransaction bc ID' = Ok None /\
   Forall (fun tx => ID tx <> ID') (flat_map Transactions blocks)).
Proof.
  revert blocks. induction bc as [| block bc IH]; intros blocks; cbn; [done |].
  destruct (find_in (Transactions block) ID') as [tx |] eqn:Hfind.
  - apply find_in_Some in Hfind as [Hid Hin]. intros Hvis. left. exists tx.
    split; [done |]. split; [done |].
    destruct (List.length (PrevBlockHash block) =? 0)%nat.
    + injection Hvis as <-. cbn. rewrite app_nil_r. done.
    + destruct (visited bc); [| done]. injection Hvis as <-. cbn.
      apply elem_of_app. by left.
  - apply find_in_None in Hfind.
    destruct (List.length (PrevBlockHash block) =? 0)%nat.
    + intros [= <-]. right. cbn. by rewrite app_nil_r.
    + destruct (visited bc) as [rest |]; [| done]. intros [= <-].
      destruct (IH rest eq_refl) as [(tx & Hf & Hid & Hin) | [Hf Hall]].
      * left. exists tx. split; [done |]. split; [done |]. cbn.
        apply elem_of_app. by right.
      * right. split; [done |]. cbn. by apply Forall_app.
Qed.

Lemma FindTransaction_finds_witness :
  visited [reward_block] = Some [reward_block] /\
  ((exists tx, FindTransaction [reward_block] ["r"%byte] = Ok (Some tx) /\
               ID tx = ["r"%byte] /\
               tx ∈ flat_map Transactions [reward_block]) \/
   (FindTransaction [reward_block] ["r"%byte] = Ok None /\
    Forall (fun tx => ID tx <> ["r"%byte]) (flat_map Transactions [reward_block]))).
Proof.
  split; [reflexivity |].
  exact (FindTransaction_finds [reward_block] ["r"%byte] [reward_block] eq_refl).
Defined.

Lemma by_length_valid (x : TXOutputs) : valid_value (by_length x).
Proof.
  unfold valid_value, by_length, MaxValueSize. rewrite length_replicate. lia.
Qed.


Lemma funds_reached_iff_balance_witness :
  FindUTXO from_length (Some three_stored) ["a"%byte] = Ok three_outputs /\
  Forall (fun out => (0 <= Wallet.Value out)%Z) three_outputs /\
  (total three_outputs < 2 ^ 63)%Z /\
  exists acc m,
    FindSpendableOutputs from_length (Some three_stored) ["a"%byte] 3
    = Ok (acc, m) /\
    (0 <= acc <= total three_outputs)%Z /\
    ((acc < 3)%Z <-> (total three_outputs < 3)%Z).
Proof.
  assert (H1 : FindUTXO from_length (Some three_stored) ["a"%byte]
               = Ok three_outputs) by reflexivity.
  assert (H2 : Forall (fun out => (0 <= Wallet.Value out)%Z) three_outputs).
  { repeat constructor; cbn; lia. }
  assert (H3 : (total three_outputs < 2 ^ 63)%Z) by (vm_compute; reflexivity).
  split; [exact H1 |]. split; [exact H2 |]. split; [exact H3 |].
  exact (funds_reached_iff_balance from_length (Some three_stored)
           ["a"%byte] 3 three_outputs H1 H2 H3).
Defined.

Lemma Update_adds_coinbase_outputs_witness :
  exists b' UTXOs',
    Update by_length reward_codec always_coinbase (Some ∅) reward_block
    = Ok (Some b') /\
    FindUTXO reward_codec (Some b') ["a"%byte] = Ok UTXOs' /\
    UTXOs' ≡ₚ
      [] ++ filter (fun out => Wallet.IsLockedWithKey out ["a"%byte] = true)
              (Vout reward).
Proof.
  apply (Update_adds_coinbase_outputs by_length reward_codec always_coinbase
           ∅ reward_block reward ["a"%byte] []).
  - reflexivity.
  - reflexivity.
  - reflexivity.
  - unfold valid_key, MaxKeySize. cbn. lia.
  - apply by_length_valid.
  - reflexivity.
  - reflexivity.
Defined.

(** What is left under the earlier transaction's ID: the second output, as
    it should be, and the third, which was spent. *)
Example spent_output_remains :
  delete 2 (delete 0 three_outputs)
  = [ {| Wallet.Value := 2; Wallet.PubKeyHash := ["a"%byte] |};
      {| Wallet.Value := 4; Wallet.PubKeyHash := ["a"%byte] |} ].
Proof. reflexivity. Qed.

End UtxoFacts.

Module PersistFacts.

Import Go Bolt Persist GoFacts BoltFacts.

Section WithMissing.

Variable Block : Type.
Variable Hash : Block -> bytes.
Variable PrevBlockHash : Block -> bytes.
Variable NewBlock : Z -> string -> bytes -> Block.
Variable NewGenesisBlock : Z -> Block.
Variable gob_Encode : Block -> option bytes.
Variable gob_Decode : bytes -> option Block.

(** X14. A block that [AddBlock] has stored is the first block an iterator
    returns, and the iterator then stands at the block's previous hash.
    The block is made on top of the last hash kept in the store. *)
Theorem AddBlock_then_Next
    (now : Z) (bc : Blockchain) (data : string) (b : Bucket) (encoded : bytes) :
  db bc = Some b ->
  let newBlock := NewBlock now data (Get b l) in
  gob_Encode newBlock = Some encoded ->
  gob_Decode encoded = Some newBlock ->
  valid_key (Hash newBlock) -> valid_value encoded ->
  Hash newBlock <> l ->
  exists bc',
    AddBlock Block Hash NewBlock gob_Encode now bc data = Ok bc' /\
    tip bc' = Hash newBlock /\
    Next Block PrevBlockHash gob_Decode (Iterator bc')
    = Ok (newBlock, {| currentHash := PrevBlockHash newBlock;
                       iterator_db := db bc' |}).
Proof.
  intros Hdb newBlock Henc Hdec Hkey Hval Hl.
  assert (Hvl : valid_key l) by (unfold valid_key, MaxKeySize; cbn; lia).
  assert (Hvh : valid_value (Hash newBlock)).
  { unfold valid_key, valid_value, MaxKeySize, MaxValueSize in *. lia. }
  eexists. split; [| split].
  - unfold AddBlock, Serialize. rewrite Hdb. fold newBlock. rewrite Henc, bind_Ok.
    rewrite checked_Put_valid by done. rewrite bind_Ok.
    rewrite checked_Put_valid by done. rewrite bind_Ok. reflexivity.
  - reflexivity.
  - unfold Next, Iterator, DeserializeBlock, Get. cbn [iterator_db currentHash tip db].
    rewrite lookup_insert_ne by done. rewrite lookup_insert_eq.
    cbn [from_option id]. by rewrite Hdec.
Qed.

(** X15. The tip is kept in the store: opening the store that
    [NewBlockchain] or [AddBlock] left gives back the same chain, tip and
    contents, and changes nothing. *)
Theorem reopening_gives_same_chain
    (now now' : Z) (file : DB) (bc0 bc : Blockchain) (data : string) :
  NewBlockchain Block Hash NewGenesisBlock gob_Encode now file = Ok bc \/
  AddBlock Block Hash NewBlock gob_Encode now bc0 data = Ok bc ->
  NewBlockchain Block Hash NewGenesisBlock gob_Encode now' (db bc) = Ok bc.
Proof.
  intros [Hnew | Hadd].
  - unfold NewBlockchain in Hnew. destruct file as [b |].
    + by injection Hnew as <-.
    + destruct (Serialize Block gob_Encode (NewGenesisBlock now)) as [e | p]; [| done].
      rewrite bind_Ok in Hnew.
      destruct (checked_Put ∅ (Hash (NewGenesisBlock now)) e) as [b1 | p] eqn:H1;
        [| done].
      rewrite bind_Ok in Hnew.
      destruct (checked_Put b1 l (Hash (NewGenesisBlock now))) as [b2 | p] eqn:H2;
        [| done].
      rewrite bind_Ok in Hnew. injection Hnew as <-. cbn.
      apply checked_Put_Ok in H2 as ->. unfold Get. by rewrite lookup_insert_eq.
  - unfold AddBlock in Hadd. destruct (db bc0) as [b |]; [| done].
    destruct (Serialize Block gob_Encode (NewBlock now data (Get b l))) as [e | p];
      [| done].
    rewrite bind_Ok in Hadd.
    destruct (checked_Put b (Hash (NewBlock now data (Get b l))) e) as [b1 | p] eqn:H1;
      [| done].
    rewrite bind_Ok in Hadd.
    destruct (checked_Put b1 l (Hash (NewBlock now data (Get b l)))) as [b2 | p] eqn:H2;
      [| done].
    rewrite bind_Ok in Hadd. injection Hadd as <-. cbn.
    apply checked_Put_Ok in H2 as ->. unfold Get. by rewrite lookup_insert_eq.
Qed.

Hypothesis genesis_first : forall now, PrevBlockHash (NewGenesisBlock now) = [].
Hypothesis NewBlock_prev :
  forall now data prev, PrevBlockHash (NewBlock now data prev) = prev.
Hypothesis gob_round_trip :
  forall block encoded, gob_Encode block = Some encoded ->
                        gob_Decode encoded = Some block.

Lemma checked_Put_key (b b' : Bucket) (key value : bytes) :
  checked_Put b key value = Ok b' -> key <> [].
Proof.
  unfold checked_Put, Put. destruct key; [done |]. done.
Qed.

Lemma kept_insert (b : Bucket) (key value : bytes) (block : Block) :
  key <> Hash block -> kept Block Hash gob_Decode b block -> kept Block Hash gob_Decode (<[key := value]> b) block.
Proof.
  intros Hne (Hnonempty & e & Hlook & Hdec). split; [done |].
  exists e. by rewrite lookup_insert_ne.
Qed.

Lemma stored_invariant (bc : Blockchain) (blocks : list Block) :
  stored Block Hash NewBlock NewGenesisBlock gob_Encode bc blocks ->
  exists b newest older,
    db bc = Some b /\ blocks = newest :: older /\
    tip bc = Hash newest /\ Get b l = Hash newest /\
    chained Block Hash PrevBlockHash blocks /\ Forall (kept Block Hash gob_Decode b) blocks /\
    Forall (fun block => Hash block <> l) blocks.
Proof.
  induction 1 as [now bc Hnew Hl | now bc data bc' blocks b Hst IH Hdb Hadd Hl Hfresh].
  - unfold NewBlockchain, Serialize in Hnew.
    destruct (gob_Encode (NewGenesisBlock now)) as [e |] eqn:Henc; [| done].
    rewrite bind_Ok in Hnew.
    destruct (checked_Put ∅ (Hash (NewGenesisBlock now)) e) as [b1 | p] eqn:H1;
      [| done].
    rewrite bind_Ok in Hnew.
    destruct (checked_Put b1 l (Hash (NewGenesisBlock now))) as [b2 | p] eqn:H2;
      [| done].
    rewrite bind_Ok in Hnew. injection Hnew as <-.
    pose proof (checked_Put_key _ _ _ _ H1) as Hne.
    apply checked_Put_Ok in H1 as ->. apply checked_Put_Ok in H2 as ->.
    eexists _, _, []. split; [reflexivity |]. split; [reflexivity |].
    split; [reflexivity |]. split; [unfold Get; by rewrite lookup_insert_eq |].
    split; [apply genesis_first |]. split; [| by constructor].
    constructor; [| constructor]. split; [done |]. exists e.
    rewrite lookup_insert_ne by done. rewrite lookup_insert_eq. eauto.
  - destruct IH as (b0 & newest & older & Hdb0 & -> & Htip & Hlast & Hch & Hkept & Hnl).
    rewrite Hdb in Hdb0. injection Hdb0 as <-.
    unfold AddBlock, Serialize in Hadd. rewrite Hdb in Hadd.
    set (nb := NewBlock now data (Get b l)) in *.
    destruct (gob_Encode nb) as [e |] eqn:Henc; [| done].
    rewrite bind_Ok in Hadd.
    destruct (checked_Put b (Hash nb) e) as [b1 | p] eqn:H1; [| done].
    rewrite bind_Ok in Hadd.
    destruct (checked_Put b1 l (Hash nb)) as [b2 | p] eqn:H2; [| done].
    rewrite bind_Ok in Hadd. injection Hadd as <-.
    pose proof (checked_Put_key _ _ _ _ H1) as Hne.
    apply checked_Put_Ok in H1 as ->. apply checked_Put_Ok in H2 as ->.
    eexists _, nb, (newest :: older). split; [reflexivity |].
    split; [reflexivity |]. split; [reflexivity |].
    split; [unfold Get; by rewrite lookup_insert_eq |].
    split; [| split].
    + cbn [chained]. split; [| done]. subst nb. by rewrite NewBlock_prev, Hlast.
    + constructor.
      * split; [done |]. exists e. rewrite lookup_insert_ne by done.
        rewrite lookup_insert_eq. eauto.
      * rewrite Forall_forall in Hkept, Hnl |- *. intros block Hin.
        apply kept_insert; [symmetry; apply Hnl; done |].
        apply kept_insert; [| by apply Hkept].
        intros Heq. apply Hfresh. rewrite Heq. by apply list_elem_of_fmap_2.
    + by constructor.
Qed.

(** From a block that is kept, the loop prints the chain down to the
    first block. *)
Lemma printChain_chained (b : Bucket) (blocks : list Block) :
  forall (fuel : nat) (newest : Block) (older : list Block),
  blocks = newest :: older ->
  chained Block Hash PrevBlockHash blocks -> Forall (kept Block Hash gob_Decode b) blocks ->
  List.length blocks <= fuel ->
  printChain Block PrevBlockHash gob_Decode fuel
    {| currentHash := Hash newest; iterator_db := Some b |}
  = Some (Ok blocks).
Proof.
  induction blocks as [| block rest IH]; intros fuel newest older Heq Hch Hkept Hfuel;
    [done |].
  injection Heq as <- <-. destruct fuel as [| fuel]; [cbn in Hfuel; lia |].
  inversion Hkept as [| ? ? (Hne & e & Hlook & Hdec) Hrest]; subst.
  cbn [printChain]. unfold Next, DeserializeBlock, Get.
  cbn [iterator_db currentHash]. rewrite Hlook. cbn [from_option id].
  rewrite Hdec, bind_Ok. cbn [chained] in Hch.
  destruct rest as [| before rest].
  - by rewrite Hch.
  - destruct Hch as [Hprev Hch]. rewrite Hprev.
    inversion Hrest as [| ? ? (Hne' & _) _]; subst.
    destruct (Hash before) as [| x h] eqn:Hh; [done |].
    cbn [List.length Nat.eqb]. rewrite <- Hh.
    rewrite (IH fuel before rest); [done | done | done | done |].
    cbn in Hfuel |- *. lia.
Qed.

(** X16. Everything put in comes back out.  For a chain made in an empty
    store by [NewBlockchain] and grown by [AddBlock], with block hashes
    that differ from one another, the loop of [printChain] prints every
    block, the newest first and the genesis block last, and then stops. *)
Theorem printChain_prints_all_blocks
    (bc : Blockchain) (blocks : list Block) (fuel : nat) :
  stored Block Hash NewBlock NewGenesisBlock gob_Encode bc blocks ->
  List.length blocks <= fuel ->
  printChain Block PrevBlockHash gob_Decode fuel (Iterator bc) = Some (Ok blocks).
Proof.
  intros Hst Hfuel.
  destruct (stored_invariant bc blocks Hst)
    as (b & newest & older & Hdb & Heq & Htip & _ & Hch & Hkept & _).
  unfold Iterator. rewrite Htip, Hdb.
  by apply (printChain_chained b blocks fuel newest older).
Qed.

End WithMissing.

Lemma encode_known_round_trip (block : Chain.Block) (encoded : bytes) :
  encode_known block = Some encoded -> decode_known encoded = Some block.
Proof.
  unfold encode_known. case_bool_decide as Hknown; [| done].
  intros [= <-]. by destruct Hknown as [-> | ->].
Qed.

Lemma one_block_chain_new :
  NewBlockchain Chain.Block Chain.Hash toy_genesis encode_known 0 None
  = Ok one_block_chain.
Proof. reflexivity. Qed.

Lemma two_block_chain_added :
  AddBlock Chain.Block Chain.Hash toy_block encode_known 0 one_block_chain
    "Send 1 BTC to Ivan"
  = Ok two_block_chain.
Proof. reflexivity. Qed.

Lemma two_block_chain_stored :
  stored Chain.Block Chain.Hash toy_block toy_genesis encode_known
    two_block_chain [second_block; first_block].
Proof.
  assert (Hsecond : second_block
                    = toy_block 0 "Send 1 BTC to Ivan" (Get one_block_store l))
    by reflexivity.
  rewrite Hsecond.
  apply (stored_add Chain.Block Chain.Hash toy_block toy_genesis encode_known
           0 one_block_chain "Send 1 BTC to Ivan" two_block_chain
           [first_block] one_block_store).
  - apply (stored_new Chain.Block Chain.Hash toy_block toy_genesis encode_known 0);
      [exact one_block_chain_new | discriminate].
  - reflexivity.
  - exact two_block_chain_added.
  - discriminate.
  - apply (bool_decide_unpack _). reflexivity.
Qed.

Lemma AddBlock_then_Next_witness :
  exists bc',
    AddBlock Chain.Block Chain.Hash toy_block encode_known 0 one_block_chain
      "Send 1 BTC to Ivan" = Ok bc' /\
    tip bc' = Chain.Hash second_block /\
    Next Chain.Block Chain.PrevBlockHash decode_known (Iterator bc')
    = Ok (second_block, {| currentHash := Chain.PrevBlockHash second_block;
                           iterator_db := db bc' |}).
Proof.
  assert (Hkey : valid_key (Chain.Hash second_block))
    by (unfold valid_key, MaxKeySize; cbn; lia).
  assert (Hval : valid_value (Chain.Hash second_block))
    by (unfold valid_value, MaxValueSize; cbn; lia).
  assert (Hl : Chain.Hash second_block <> l) by discriminate.
  exact (AddBlock_then_Next Chain.Block Chain.Hash Chain.PrevBlockHash toy_block
           encode_known decode_known 0 one_block_chain "Send 1 BTC to Ivan"
           one_block_store (Chain.Hash second_block)
           eq_refl eq_refl eq_refl Hkey Hval Hl).
Defined.

Lemma reopening_gives_same_chain_witness :
  (NewBlockchain Chain.Block Chain.Hash toy_genesis encode_known 0 None
   = Ok two_block_chain \/
   AddBlock Chain.Block Chain.Hash toy_block encode_known 0 one_block_chain
     "Send 1 BTC to Ivan" = Ok two_block_chain) /\
  NewBlockchain Chain.Block Chain.Hash toy_genesis encode_known 9
    (db two_block_chain) = Ok two_block_chain.
Proof.
  assert (H : NewBlockchain Chain.Block Chain.Hash toy_genesis encode_known 0 None
              = Ok two_block_chain \/
              AddBlock Chain.Block Chain.Hash toy_block encode_known 0
                one_block_chain "Send 1 BTC to Ivan" = Ok two_block_chain).
  { right. reflexivity. }
  split; [exact H |].
  exact (reopening_gives_same_chain Chain.Block Chain.Hash toy_block toy_genesis
           encode_known 0 9 None one_block_chain two_block_chain
           "Send 1 BTC to Ivan" H).
Defined.

Lemma printChain_prints_all_blocks_witness :
  printChain Chain.Block Chain.PrevBlockHash decode_known 2
    (Iterator two_block_chain)
  = Some (Ok [second_block; first_block]).
Proof.
  apply (printChain_prints_all_blocks Chain.Block Chain.Hash Chain.PrevBlockHash
           toy_block toy_genesis encode_known decode_known).
  - reflexivity.
  - reflexivity.
  - exact encode_known_round_trip.
  - exact two_block_chain_stored.
  - cbn. lia.
Defined.

End PersistFacts.
